(** * Incidents manager: the real-time synchronisation core

    A shallow embedding of the websocket server ([server/server.js]), the
    shared message contract ([src/shared/schema.ts], [src/shared/types.ts]),
    the bucketing helper ([src/features/incidents/logic/incidentFilters.ts])
    and the socket-owning hook
    ([src/features/incidents/hooks/useIncidentSocket.ts]), followed by the
    properties of the design document that can be settled on them.

    Conventions of the embedding.
    - A JavaScript [number] that carries a measurement (temperature,
      pressure) is a rational [Q].  [Server] computes on them exactly,
      which settles whatever does not turn on the last digits of a
      reading; [Binary64] rounds every operation to the nearest double, as
      the engine does, and carries the numeric properties of the generator.
      Millisecond periods and priorities are integers [Z].
    - [Math.random()] and the system clock are oracles: the k-th call reads
      the k-th entry of a sequence kept in a [World], so every result below
      holds for every sequence of draws.
    - [JSON.parse] followed by [safeParse] is a three-way classification of
      the received frame: not JSON, JSON of the wrong shape, or a message of
      the contract.
    - React state updates scheduled by a handler are applied in order when
      the handler returns; refs are plain fields of the hook state.
    - The sources hold the hook in two revisions.  [Client.Plain] is the
      shorter one; [Client.Ack] is the later one, which adds the observer
      callbacks and compares an acknowledged interval with the pending
      request.  What the two share is defined once in [Client]. *)

From Stdlib Require Import QArith Qround Qabs Qminmax Qpower Lqa ZArith Lia String Ascii.
From Stdlib Require Import Floats.SpecFloat.
From stdpp Require Import base tactics option list strings pretty.

Local Open Scope string_scope.

(** ** JavaScript values *)

Definition number := Q.

(** A field declared [T | null | undefined]. *)
Inductive nullable (A : Type) : Type :=
  | undefined : nullable A
  | null : nullable A
  | value : A -> nullable A.
Arguments undefined {A}.
Arguments null {A}.
Arguments value {A} _.

(** Truthiness of an optional string: [undefined], [null] and the empty
    string are falsy. *)
Definition truthy_string (s : string) : bool :=
  match s with EmptyString => false | String _ _ => true end.

Definition truthy (v : nullable string) : bool :=
  match v with value s => truthy_string s | _ => false end.

Definition truthy_opt (v : option string) : bool :=
  match v with Some s => truthy_string s | None => false end.

(** The number that [x.toFixed(fractionDigits)] prints, which in exact
    arithmetic is [Number(x.toFixed(fractionDigits))].  [toFixed] picks the
    integer [n] with [n / 10^f] closest to [|x|], the larger one on a tie,
    and prints the sign in front; at [10^21] and beyond it prints [x]
    itself. *)
Definition toFixed (fractionDigits : nat) (x : Q) : Q :=
  let scale := inject_Z (10 ^ Z.of_nat fractionDigits) in
  if Qle_bool (inject_Z (10 ^ 21)) (Qabs x) then x
  else
    let n := Qfloor (Qabs x * scale + (1 # 2)) in
    let r := (inject_Z n / scale)%Q in
    if Qle_bool 0 x then r else (- r)%Q.

(** [x] is a whole number of steps of size [1 / scale]. *)
Definition on_grid (scale : Z) (x : Q) : bool :=
  Qeq_bool (inject_Z (Qfloor (x * inject_Z scale))) (x * inject_Z scale).

(** [list.slice(-n)]: the last [n] elements, the whole list when shorter. *)
Definition slice_last {A} (n : nat) (l : list A) : list A :=
  drop (length l - n) l.

(** ** Oracles: random draws and the clock *)

Record World := {
  random_draws : nat -> Q;
  random_next : nat;
  clock_ms : nat -> Z;
  clock_next : nat;
  toISOString : Z -> string
}.

Definition Eff (A : Type) : Type := World -> A * World.

Definition ret {A} (a : A) : Eff A := fun w => (a, w).

Definition bind {A B} (c : Eff A) (k : A -> Eff B) : Eff B :=
  fun w => let (a, w') := c w in k a w'.

Notation "'let!' x ':=' c 'in' k" := (bind c (fun x => k))
  (at level 10, x name, c at level 100, k at level 200).

Definition Math_random : Eff Q := fun w =>
  (random_draws w (random_next w),
   {| random_draws := random_draws w; random_next := S (random_next w);
      clock_ms := clock_ms w; clock_next := clock_next w;
      toISOString := toISOString w |}).

Definition Date_now : Eff Z := fun w =>
  (clock_ms w (clock_next w),
   {| random_draws := random_draws w; random_next := random_next w;
      clock_ms := clock_ms w; clock_next := S (clock_next w);
      toISOString := toISOString w |}).

(** [new Date(ms).toISOString()] *)
Definition iso (ms : Z) : Eff string := fun w => (toISOString w ms, w).

(** Every draw lies in [0, 1), as [Math.random] promises. *)
Definition unit_draws (w : World) : Prop :=
  forall k, (0 <= random_draws w k /\ random_draws w k < 1)%Q.

Fixpoint mapM {A B} (f : A -> Eff B) (l : list A) : Eff (list B) :=
  match l with
  | [] => ret []
  | a :: l' => let! b := f a in let! bs := mapM f l' in ret (b :: bs)
  end.

(** ** Data model ([shared/types.ts], [shared/schema.ts]) *)

Definition PROTOCOL_VERSION : string := "1".

Record IncidentReading := {
  timestamp : string;
  temperature : number;
  pressure : number
}.

Record Incident := {
  incidentId : string;
  siteId : string;
  assetId : string;
  alarmId : string;
  priority : Z;
  createdAt : string;
  updatedAt : option string;
  assignedTo : nullable string;
  stateId : string;
  escalationLevelId : string;
  incidentTypeIds : option (list string);
  readings : option (list IncidentReading)
}.

(** [incident.readings = rs] *)
Definition set_readings (i : Incident) (rs : list IncidentReading) : Incident :=
  {| incidentId := incidentId i; siteId := siteId i; assetId := assetId i;
     alarmId := alarmId i; priority := priority i; createdAt := createdAt i;
     updatedAt := updatedAt i; assignedTo := assignedTo i;
     stateId := stateId i; escalationLevelId := escalationLevelId i;
     incidentTypeIds := incidentTypeIds i; readings := Some rs |}.

Record EscalationLevel := { esc_id : string; esc_name : string }.
Record IncidentType := { type_id : string; type_name : string }.
Record Site := { site_id : string; site_name : string }.
Record Asset := {
  asset_id : string; asset_siteId : string; displayName : string;
  model : string; regionName : string
}.
Record Alarm := {
  alarm_alarmId : string; code : string; description : string;
  legacyId : option string
}.

Record Catalog := {
  escalationLevels : list EscalationLevel;
  incidentTypes : list IncidentType;
  sites : list Site;
  assets : list Asset;
  alarms : list Alarm
}.

Module INCIDENT_STATES.
Definition OPEN : string := "OPEN".
Definition CLOSED : string := "CLOSED".
End INCIDENT_STATES.

(** [ClientMessageSchema] *)
Module ClientMessage.
Inductive t :=
  | addIncident (incident : Incident)
  | updateIncident (incident : Incident)
  | setReadingInterval (intervalMs : Z).
End ClientMessage.

(** [ServerMessageSchema] *)
Module ServerMessage.
Inductive t :=
  | init (protocolVersion : option string)
         (incidents : option (list Incident)) (catalog : option Catalog)
  | incidentAdded (incident : Incident)
  | incidentUpdated (incident : Incident)
  | readingIntervalUpdated (intervalMs : Z)
  | error (code : option string) (message : option string).
End ServerMessage.

(** What [JSON.parse] and [safeParse] make of a received frame. *)
Inductive Frame (M : Type) : Type :=
  | NotJson : Frame M
  | BadShape : Frame M
  | Parsed : M -> Frame M.
Arguments NotJson {M}.
Arguments BadShape {M}.
Arguments Parsed {M} _.

(** ** The server ([server/server.js]) *)

Module Server.

Definition MAX_READINGS : nat := 24.
Definition DEFAULT_READING_INTERVAL_MS : Z := 2000.
Definition MIN_READING_INTERVAL_MS : Z := 250.

Definition escalationLevels : list EscalationLevel :=
  [ {| esc_id := "esc-1"; esc_name := "Level 1" |};
    {| esc_id := "esc-2"; esc_name := "Level 2" |} ].

Definition incidentTypes : list IncidentType :=
  [ {| type_id := "type-electrical"; type_name := "Electrical" |};
    {| type_id := "type-cooling"; type_name := "Cooling" |};
    {| type_id := "type-controls"; type_name := "Controls" |};
    {| type_id := "type-facilities"; type_name := "Facilities" |} ].

Definition sites : list Site :=
  [ {| site_id := "site-1"; site_name := "North Campus Plant" |};
    {| site_id := "site-2"; site_name := "Harbor District Facility" |} ].

Definition assets : list Asset :=
  [ {| asset_id := "asset-1"; asset_siteId := "site-1";
       displayName := "Chiller CH-11"; model := "Trane RTAC 250";
       regionName := "Mechanical Room 3" |};
    {| asset_id := "asset-2"; asset_siteId := "site-1";
       displayName := "AHU AH-19"; model := "Carrier 39HQ";
       regionName := "Roof Zone 2" |};
    {| asset_id := "asset-3"; asset_siteId := "site-2";
       displayName := "Boiler BL-03"; model := "Cleaver-Brooks CB-500";
       regionName := "Basement Plant 5" |};
    {| asset_id := "asset-4"; asset_siteId := "site-2";
       displayName := "Cooling Tower CT-21"; model := "BAC FXV";
       regionName := "South Yard 1" |} ].

Definition alarms : list Alarm :=
  [ {| alarm_alarmId := "alarm-100"; code := "HV-100";
       description := "High condenser pressure"; legacyId := Some "100" |};
    {| alarm_alarmId := "alarm-220"; code := "HV-220";
       description := "Supply air temp deviation"; legacyId := Some "220" |};
    {| alarm_alarmId := "alarm-310"; code := "HV-310";
       description := "Boiler flame failure"; legacyId := Some "310" |};
    {| alarm_alarmId := "alarm-420"; code := "HV-420";
       description := "BAS comms loss"; legacyId := Some "420" |} ].

Definition catalog : Catalog :=
  Build_Catalog escalationLevels incidentTypes sites assets alarms.

(** [/^[a-z0-9-]{3,32}$/i]: one character of the class. *)
Definition id_char (c : ascii) : bool :=
  let n := nat_of_ascii c in
  (((97 <=? n) && (n <=? 122)) || ((65 <=? n) && (n <=? 90))
   || ((48 <=? n) && (n <=? 57)) || (n =? 45))%nat.

Definition INCIDENT_ID_PATTERN_test (s : string) : bool :=
  ((3 <=? String.length s)%nat && (String.length s <=? 32)%nat
   && forallb id_char (list_ascii_of_string s))%bool.

(** [new Date(Date.now() - 1000 * 60 * minutes).toISOString()] *)
Definition minutes_ago (minutes : Z) : Eff string :=
  let! t := Date_now in iso (t - 1000 * 60 * minutes)%Z.

(** The [incidents] array literal, evaluated top to bottom at start-up. *)
Definition seed_incidents : Eff (list Incident) :=
  let! c1 := minutes_ago 12 in
  let! c2 := minutes_ago 42 in
  let! c3 := minutes_ago 90 in
  let! c4 := minutes_ago 180 in
  let! u4 := minutes_ago 30 in
  ret [ {| incidentId := "inc-1001"; siteId := "site-1"; assetId := "asset-1";
           alarmId := "alarm-100"; priority := 1; createdAt := c1;
           updatedAt := None; assignedTo := undefined;
           stateId := "OPEN"; escalationLevelId := "esc-1";
           incidentTypeIds := Some ["type-electrical"]; readings := None |};
        {| incidentId := "inc-1002"; siteId := "site-2"; assetId := "asset-3";
           alarmId := "alarm-310"; priority := 2; createdAt := c2;
           updatedAt := None; assignedTo := value "user-2";
           stateId := "OPEN"; escalationLevelId := "esc-1";
           incidentTypeIds := Some ["type-cooling"]; readings := None |};
        {| incidentId := "inc-1003"; siteId := "site-2"; assetId := "asset-4";
           alarmId := "alarm-420"; priority := 3; createdAt := c3;
           updatedAt := None; assignedTo := value "user-1";
           stateId := "OPEN"; escalationLevelId := "esc-2";
           incidentTypeIds := Some ["type-controls"]; readings := None |};
        {| incidentId := "inc-1004"; siteId := "site-1"; assetId := "asset-2";
           alarmId := "alarm-220"; priority := 1; createdAt := c4;
           updatedAt := Some u4; assignedTo := value "user-1";
           stateId := "CLOSED"; escalationLevelId := "esc-2";
           incidentTypeIds := Some ["type-facilities"]; readings := None |} ].

(** make a temp/pressure reading with some random drift (computed exactly
    here; [Binary64.createReading] rounds every step as the engine does) *)
Definition createReading (previous : option IncidentReading) : Eff IncidentReading :=
  let! temperatureBase :=
    match previous with
    | Some p => ret (temperature p)
    | None => let! r := Math_random in ret (68 + r * 12)%Q
    end in
  let! pressureBase :=
    match previous with
    | Some p => ret (pressure p)
    | None => let! r := Math_random in ret (18 + r * 6)%Q
    end in
  let! rt := Math_random in
  let temperature := toFixed 1 (temperatureBase + (rt * 4 - 2))%Q in
  let! rp := Math_random in
  let pressure := toFixed 2 (pressureBase + (rp * 2 - 1))%Q in
  let! now := Date_now in
  let! stamp := iso now in
  ret {| timestamp := stamp; temperature := temperature; pressure := pressure |}.

(** The [for] loop of [seedReadings]: [n] pushes onto [readings]. *)
Fixpoint push_readings (n : nat) (readings : list IncidentReading)
  : Eff (list IncidentReading) :=
  match n with
  | O => ret readings
  | S n' =>
      let previous := last readings in
      let! r := createReading previous in
      push_readings n' (readings ++ [r])
  end.

Definition seedReadings (incidents : list Incident) : Eff (list Incident) :=
  mapM (fun incident =>
          let! readings := push_readings MAX_READINGS [] in
          ret (set_readings incident readings))
       incidents.

(** What a handler does to the sockets. *)
Inductive Effect :=
  | send (message : ServerMessage.t)
  | broadcast (message : ServerMessage.t).

Definition sendError (code message : string) : Effect :=
  send (ServerMessage.error (Some code) (Some message)).

Record State := {
  incidents : list Incident;
  readingIntervalMs : Z;
  (** the period the running [setInterval] timer was started with *)
  readingIntervalId : option Z;
  world : World
}.

Definition with_world (s : State) (w : World) : State :=
  {| incidents := incidents s; readingIntervalMs := readingIntervalMs s;
     readingIntervalId := readingIntervalId s; world := w |}.

Definition with_incidents (s : State) (l : list Incident) : State :=
  {| incidents := l; readingIntervalMs := readingIntervalMs s;
     readingIntervalId := readingIntervalId s; world := world s |}.

(** [setInterval(..., readingIntervalMs)] *)
Definition startReadingInterval (s : State) : option Z :=
  Some (readingIntervalMs s).

(** Module start-up: the seeded store and the first timer. *)
Definition boot (w : World) : State :=
  let (seeds, w1) := seed_incidents w in
  let (seeded, w2) := seedReadings seeds w1 in
  let s := {| incidents := seeded;
              readingIntervalMs := DEFAULT_READING_INTERVAL_MS;
              readingIntervalId := None; world := w2 |} in
  {| incidents := seeded;
     readingIntervalMs := DEFAULT_READING_INTERVAL_MS;
     readingIntervalId := startReadingInterval s; world := w2 |}.

(** [wss.on('connection', ...)]: the snapshot sent to the new socket. *)
Definition onConnection (s : State) : list Effect :=
  [ send (ServerMessage.init (Some PROTOCOL_VERSION) (Some (incidents s))
            (Some catalog)) ].

(** [incidents.findIndex(item => item.incidentId === id)] *)
Definition findIndex (id : string) (l : list Incident) : option nat :=
  fst <$> list_find (fun item => incidentId item = id) l.

Definition handle_addIncident (s : State) (incident : Incident)
  : State * list Effect :=
  if negb (INCIDENT_ID_PATTERN_test (incidentId incident)) then
    (s, [ sendError "INVALID_INCIDENT_ID"
            "Incident ID must be 3-32 characters: letters, numbers, or hyphens." ])
  else
    let previousReading :=
      match readings incident with Some rs => last rs | None => None end in
    let (incident', w') :=
      match readings incident with
      | Some (_ :: _) => (incident, world s)
      | _ =>
          let (r, w') := createReading previousReading (world s) in
          (set_readings incident [r], w')
      end in
    (with_world (with_incidents s (incident' :: incidents s)) w',
     [ broadcast (ServerMessage.incidentAdded incident') ]).

Definition handle_updateIncident (s : State) (incident : Incident)
  : State * list Effect :=
  let index := findIndex (incidentId incident) (incidents s) in
  let incidents' :=
    match index with
    | Some i => <[ i := incident ]> (incidents s)
    | None => incident :: incidents s
    end in
  (with_incidents s incidents',
   [ broadcast (ServerMessage.incidentUpdated incident) ]).

Definition handle_setReadingInterval (s : State) (intervalMs : Z)
  : State * list Effect :=
  let nextInterval := Z.max MIN_READING_INTERVAL_MS intervalMs in
  let s1 := {| incidents := incidents s; readingIntervalMs := nextInterval;
               readingIntervalId := None; world := world s |} in
  ({| incidents := incidents s; readingIntervalMs := nextInterval;
      readingIntervalId := startReadingInterval s1; world := world s |},
   [ broadcast (ServerMessage.readingIntervalUpdated nextInterval) ]).

(** [socket.on('message', ...)] *)
Definition onMessage (s : State) (data : Frame ClientMessage.t)
  : State * list Effect :=
  match data with
  | NotJson => (s, [])
  | BadShape =>
      (s, [ sendError "INVALID_MESSAGE"
              "Message did not match the expected schema." ])
  | Parsed (ClientMessage.addIncident incident) =>
      handle_addIncident s incident
  | Parsed (ClientMessage.updateIncident incident) =>
      handle_updateIncident s incident
  | Parsed (ClientMessage.setReadingInterval intervalMs) =>
      handle_setReadingInterval s intervalMs
  end.

(** One incident's share of a timer firing. *)
Definition advance (incident : Incident) : Eff Incident :=
  let readings := default [] (readings incident) in
  let previous := last readings in
  let! nextReading := createReading previous in
  let nextReadings := slice_last MAX_READINGS (readings ++ [nextReading]) in
  ret (set_readings incident nextReadings).

(** The callback of [startReadingInterval]: one firing of the timer. *)
Definition tick (s : State) : State * list Effect :=
  let (incidents', w') := mapM advance (incidents s) (world s) in
  (with_world (with_incidents s incidents') w',
   map (fun incident => broadcast (ServerMessage.incidentUpdated incident))
       incidents').

(** The events the store reacts to, and runs of them. *)
Inductive Event :=
  | Message (data : Frame ClientMessage.t)
  | Tick.

Definition step (s : State) (e : Event) : State * list Effect :=
  match e with
  | Message data => onMessage s data
  | Tick => tick s
  end.

Definition run (s : State) (es : list Event) : State :=
  fold_left (fun s e => fst (step s e)) es s.

(** *** Vocabulary for statements about runs *)

Definition ids (s : State) : list string := map incidentId (incidents s).

(** [incident.readings ?? []] *)
Definition history (incident : Incident) : list IncidentReading :=
  default [] (readings incident).

Definition bounded_history (s : State) : Prop :=
  Forall (fun incident => length (history incident) <= MAX_READINGS)
         (incidents s).

(** The event is not an [addIncident] that passes the identifier check
    while its identifier is already in the store. *)
Definition adds_fresh_id (s : State) (e : Event) : bool :=
  match e with
  | Message (Parsed (ClientMessage.addIncident incident)) =>
      negb (INCIDENT_ID_PATTERN_test (incidentId incident))
      || bool_decide (incidentId incident ∉ ids s)
  | _ => true
  end.

Fixpoint fresh_adds (s : State) (es : list Event) : bool :=
  match es with
  | [] => true
  | e :: es' => adds_fresh_id s e && fresh_adds (fst (step s e)) es'
  end.

(** The incident carried by an update, or by an add that passes the
    identifier check, has at most [MAX_READINGS] readings. *)
Definition carries_bounded (e : Event) : bool :=
  match e with
  | Message (Parsed (ClientMessage.addIncident incident)) =>
      negb (INCIDENT_ID_PATTERN_test (incidentId incident))
      || bool_decide (length (history incident) <= MAX_READINGS)
  | Message (Parsed (ClientMessage.updateIncident incident)) =>
      bool_decide (length (history incident) <= MAX_READINGS)
  | _ => true
  end.

(** [r] is what [createReading] returns for [previous] under some state of
    the oracles. *)
Definition generated_from (previous : option IncidentReading)
    (r : IncidentReading) : Prop :=
  exists w, r = fst (createReading previous w).

(** What one timer firing does to one incident: one reading generated from
    the last one is appended and the list is cut back to its newest
    [MAX_READINGS] entries. *)
Definition advanced (i i' : Incident) : Prop :=
  exists r,
    generated_from (last (history i)) r
    /\ i' = set_readings i (slice_last MAX_READINGS (history i ++ [r])).

(** Each reading of [gen] was generated from the one before it, the first
    from [previous]. *)
Fixpoint generation_chain (previous : option IncidentReading)
    (gen : list IncidentReading) : Prop :=
  match gen with
  | [] => True
  | r :: gen' => generated_from previous r /\ generation_chain (Some r) gen'
  end.

(** What [n] timer firings with nothing in between do to one incident: it
    holds the newest [MAX_READINGS] entries of its old readings followed by
    the [n] generated ones, in the order of generation. *)
Definition advanced_by (n : nat) (i i' : Incident) : Prop :=
  exists gen,
    length gen = n
    /\ generation_chain (last (history i)) gen
    /\ i' = set_readings i (slice_last MAX_READINGS (history i ++ gen)).

End Server.

(** ** Bucketing ([features/incidents/logic/incidentFilters.ts]) *)

Module Filters.

Inductive IncidentBucket := new | active | completed.

(** filter controls first, then bucket rules *)
Definition matchesFilter (escalationLevelId' : option string)
    (incidentTypeIds' : option (list string)) (incident : Incident) : bool :=
  if truthy_opt escalationLevelId'
     && negb (bool_decide (Some (escalationLevelId incident) = escalationLevelId'))
  then false
  else
    match incidentTypeIds' with
    | Some (t :: ts) =>
        let incidentTypes := default [] (incidentTypeIds incident) in
        let matchesIncidentType :=
          existsb (fun typeId => bool_decide (typeId ∈ incidentTypes)) (t :: ts) in
        if negb matchesIncidentType then false else true
    | _ => true
    end.

Definition in_bucket (type : IncidentBucket) (incident : Incident) : bool :=
  match type with
  | new =>
      bool_decide (stateId incident = INCIDENT_STATES.OPEN)
      && negb (truthy (assignedTo incident))
  | active =>
      bool_decide (stateId incident = INCIDENT_STATES.OPEN)
      && negb (negb (truthy (assignedTo incident)))
  | completed => bool_decide (stateId incident = INCIDENT_STATES.CLOSED)
  end.

Definition getIncidentsByType (incidents : list Incident) (type : IncidentBucket)
    (escalationLevelId' : option string)
    (incidentTypeIds' : option (list string)) : list Incident :=
  List.filter
    (fun incident =>
       if negb (matchesFilter escalationLevelId' incidentTypeIds' incident)
       then false
       else in_bucket type incident)
    incidents.

End Filters.

(** ** The socket-owning hook ([features/incidents/hooks/useIncidentSocket.ts]) *)

Module Client.

Inductive IncidentAction :=
  | Init (incidents : list Incident)
  | Add (incident : Incident)
  | Update (incident : Incident).

(** reducer keeps incident list transitions explicit and testable *)
Definition incidentsReducer (state : list Incident) (action : IncidentAction)
  : list Incident :=
  match action with
  | Init incidents => incidents
  | Add incident => incident :: state
  | Update incident =>
      let exists_ :=
        existsb (fun item => bool_decide (incidentId item = incidentId incident))
                state in
      if negb exists_ then incident :: state
      else
        map (fun item =>
               if bool_decide (incidentId item = incidentId incident)
               then incident else item)
            state
  end.

Inductive ConnectionStatus := connected | disconnected.

(** [WebSocket.readyState] *)
Inductive ReadyState := CONNECTING | OPEN | CLOSING | CLOSED.

Definition emptyCatalog : Catalog := Build_Catalog [] [] [] [] [].

(** React state and refs of one mounted hook.  [socketRef] is [None] before
    the socket exists and otherwise holds its ready state;
    [intervalTimeoutRef] tells whether the ref holds a timer id and
    [timeoutArmed] whether that timer is still going to fire. *)
Record Hook := {
  incidents : list Incident;
  catalog : Catalog;
  connectionStatus : ConnectionStatus;
  readingIntervalMs : Z;
  lastError : option string;
  socketRef : option ReadyState;
  pendingIntervalRef : option Z;
  intervalTimeoutRef : bool;
  timeoutArmed : bool;
  suppressIntervalRequestRef : bool
}.

(** What a handler does to the outside: frames put on the socket and the
    observer callbacks of the later revision. *)
Inductive Output :=
  | sent (message : ClientMessage.t)
  | onError (message : string)
  | onConnect
  | onDisconnect.

Definition initial : Hook :=
  {| incidents := []; catalog := emptyCatalog;
     connectionStatus := disconnected; readingIntervalMs := 2000;
     lastError := None; socketRef := None; pendingIntervalRef := None;
     intervalTimeoutRef := false; timeoutArmed := false;
     suppressIntervalRequestRef := false |}.

Definition dispatch (h : Hook) (action : IncidentAction) : Hook :=
  {| incidents := incidentsReducer (incidents h) action; catalog := catalog h;
     connectionStatus := connectionStatus h;
     readingIntervalMs := readingIntervalMs h; lastError := lastError h;
     socketRef := socketRef h; pendingIntervalRef := pendingIntervalRef h;
     intervalTimeoutRef := intervalTimeoutRef h;
     timeoutArmed := timeoutArmed h;
     suppressIntervalRequestRef := suppressIntervalRequestRef h |}.

Definition setCatalog (h : Hook) (c : Catalog) : Hook :=
  {| incidents := incidents h; catalog := c;
     connectionStatus := connectionStatus h;
     readingIntervalMs := readingIntervalMs h; lastError := lastError h;
     socketRef := socketRef h; pendingIntervalRef := pendingIntervalRef h;
     intervalTimeoutRef := intervalTimeoutRef h;
     timeoutArmed := timeoutArmed h;
     suppressIntervalRequestRef := suppressIntervalRequestRef h |}.

Definition setConnectionStatus (h : Hook) (c : ConnectionStatus) : Hook :=
  {| incidents := incidents h; catalog := catalog h;
     connectionStatus := c;
     readingIntervalMs := readingIntervalMs h; lastError := lastError h;
     socketRef := socketRef h; pendingIntervalRef := pendingIntervalRef h;
     intervalTimeoutRef := intervalTimeoutRef h;
     timeoutArmed := timeoutArmed h;
     suppressIntervalRequestRef := suppressIntervalRequestRef h |}.

Definition setReadingIntervalMs (h : Hook) (ms : Z) : Hook :=
  {| incidents := incidents h; catalog := catalog h;
     connectionStatus := connectionStatus h;
     readingIntervalMs := ms; lastError := lastError h;
     socketRef := socketRef h; pendingIntervalRef := pendingIntervalRef h;
     intervalTimeoutRef := intervalTimeoutRef h;
     timeoutArmed := timeoutArmed h;
     suppressIntervalRequestRef := suppressIntervalRequestRef h |}.

Definition setLastError (h : Hook) (e : option string) : Hook :=
  {| incidents := incidents h; catalog := catalog h;
     connectionStatus := connectionStatus h;
     readingIntervalMs := readingIntervalMs h; lastError := e;
     socketRef := socketRef h; pendingIntervalRef := pendingIntervalRef h;
     intervalTimeoutRef := intervalTimeoutRef h;
     timeoutArmed := timeoutArmed h;
     suppressIntervalRequestRef := suppressIntervalRequestRef h |}.

Definition set_socket (h : Hook) (s : option ReadyState) : Hook :=
  {| incidents := incidents h; catalog := catalog h;
     connectionStatus := connectionStatus h;
     readingIntervalMs := readingIntervalMs h; lastError := lastError h;
     socketRef := s; pendingIntervalRef := pendingIntervalRef h;
     intervalTimeoutRef := intervalTimeoutRef h;
     timeoutArmed := timeoutArmed h;
     suppressIntervalRequestRef := suppressIntervalRequestRef h |}.

Definition set_pending (h : Hook) (p : option Z) : Hook :=
  {| incidents := incidents h; catalog := catalog h;
     connectionStatus := connectionStatus h;
     readingIntervalMs := readingIntervalMs h; lastError := lastError h;
     socketRef := socketRef h; pendingIntervalRef := p;
     intervalTimeoutRef := intervalTimeoutRef h;
     timeoutArmed := timeoutArmed h;
     suppressIntervalRequestRef := suppressIntervalRequestRef h |}.

Definition set_timeout (h : Hook) (ref armed : bool) : Hook :=
  {| incidents := incidents h; catalog := catalog h;
     connectionStatus := connectionStatus h;
     readingIntervalMs := readingIntervalMs h; lastError := lastError h;
     socketRef := socketRef h; pendingIntervalRef := pendingIntervalRef h;
     intervalTimeoutRef := ref; timeoutArmed := armed;
     suppressIntervalRequestRef := suppressIntervalRequestRef h |}.

Definition set_suppress (h : Hook) (b : bool) : Hook :=
  {| incidents := incidents h; catalog := catalog h;
     connectionStatus := connectionStatus h;
     readingIntervalMs := readingIntervalMs h; lastError := lastError h;
     socketRef := socketRef h; pendingIntervalRef := pendingIntervalRef h;
     intervalTimeoutRef := intervalTimeoutRef h;
     timeoutArmed := timeoutArmed h;
     suppressIntervalRequestRef := b |}.

(** [socketRef.current && socketRef.current.readyState === WebSocket.OPEN] *)
Definition socket_open (h : Hook) : bool :=
  match socketRef h with Some OPEN => true | _ => false end.

Definition clearIntervalTimeout (h : Hook) : Hook :=
  if intervalTimeoutRef h then set_timeout h false false else h.

Definition requestServerInterval (h : Hook) (nextInterval : Z)
  : Hook * list Output :=
  if socket_open h then
    let h1 := set_pending h (Some nextInterval) in
    let h2 := clearIntervalTimeout h1 in
    let h3 := set_timeout h2 true true in
    (h3, [ sent (ClientMessage.setReadingInterval nextInterval) ])
  else (h, []).

(** The callback given to [window.setTimeout] in [requestServerInterval]. *)
Definition intervalTimeout (h : Hook) : Hook :=
  if timeoutArmed h then
    setLastError (set_timeout h (intervalTimeoutRef h) false)
      (Some "Server did not confirm the reading interval change.")
  else h.

(** [useEffect(..., [readingIntervalMs])] *)
Definition intervalEffect (h : Hook) : Hook * list Output :=
  if suppressIntervalRequestRef h then (set_suppress h false, [])
  else requestServerInterval h (readingIntervalMs h).

(** The render that follows a handler: the interval effect runs when
    [readingIntervalMs] differs from the value of the previous render. *)
Definition rerender (before : Z) (r : Hook * list Output) : Hook * list Output :=
  let (h, out) := r in
  if bool_decide (readingIntervalMs h = before) then (h, out)
  else let (h', out') := intervalEffect h in (h', (out ++ out')%list).

(** send a brand new incident to the server *)
Definition sendIncident (h : Hook) (incident : Incident) : Hook * list Output :=
  if socket_open h then (h, [ sent (ClientMessage.addIncident incident) ])
  else (h, []).

(** send a partial update (eg drag and drop state change) to the server *)
Definition updateIncident (h : Hook) (incident : Incident) : Hook * list Output :=
  let h1 := dispatch h (Update incident) in
  if socket_open h1 then (h1, [ sent (ClientMessage.updateIncident incident) ])
  else (h1, []).

Definition protocol_mismatch (protocolVersion : option string) : option string :=
  match protocolVersion with
  | Some v =>
      if truthy_string v && negb (bool_decide (v = PROTOCOL_VERSION))
      then Some ("Protocol mismatch: expected " ++ PROTOCOL_VERSION
                 ++ ", got " ++ v ++ ".")
      else None
  | None => None
  end.

Definition unexpected_shape : string :=
  "Received an unexpected message shape from the server.".

(** The hook as it stands in [useIncidentSocket.ts]. *)
Module Plain.

Definition handleMessage (h : Hook) (event : Frame ServerMessage.t)
  : Hook * list Output :=
  match event with
  | NotJson => (h, [])
  | BadShape => (setLastError h (Some unexpected_shape), [])
  | Parsed (ServerMessage.init protocolVersion incidents' catalog') =>
      let h1 :=
        match protocol_mismatch protocolVersion with
        | Some message => setLastError h (Some message)
        | None => h
        end in
      let h2 :=
        match incidents' with
        | Some l => dispatch h1 (Init l)
        | None => h1
        end in
      let h3 :=
        match catalog' with
        | Some c => setCatalog h2 c
        | None => h2
        end in
      (h3, [])
  | Parsed (ServerMessage.incidentAdded incident) =>
      (dispatch h (Add incident), [])
  | Parsed (ServerMessage.incidentUpdated incident) =>
      (dispatch h (Update incident), [])
  | Parsed (ServerMessage.readingIntervalUpdated intervalMs) =>
      let h1 := clearIntervalTimeout h in
      let h2 := set_pending h1 None in
      let h3 :=
        if negb (bool_decide (intervalMs = readingIntervalMs h))
        then setReadingIntervalMs (set_suppress h2 true) intervalMs
        else h2 in
      (setLastError h3 None, [])
  | Parsed (ServerMessage.error code message) =>
      (setLastError h (Some (default "Unexpected server error." message)), [])
  end.

Definition onOpen (h : Hook) : Hook * list Output :=
  let h1 := setLastError (setConnectionStatus (set_socket h (Some OPEN)) connected)
              None in
  requestServerInterval h1 2000.

Definition onClose (h : Hook) : Hook * list Output :=
  (setConnectionStatus (set_socket h (Some CLOSED)) disconnected, []).

Definition deliver (h : Hook) (event : Frame ServerMessage.t) : Hook * list Output :=
  rerender (readingIntervalMs h) (handleMessage h event).

End Plain.

(** The later revision of the hook, with observer callbacks and the
    comparison of the acknowledged interval with the pending request. *)
Module Ack.

(** The template literal prints a whole number of milliseconds of at most
    2^53 in plain digits, as [pretty] does. *)
Definition discrepancy (intervalMs pendingInterval : Z) : string :=
  "Server interval is " ++ pretty intervalMs ++ "ms, expected "
  ++ pretty pendingInterval ++ "ms.".

Definition handleMessage (h : Hook) (event : Frame ServerMessage.t)
  : Hook * list Output :=
  match event with
  | NotJson => (h, [])
  | BadShape =>
      let message := unexpected_shape in
      (setLastError h (Some message), [ onError message ])
  | Parsed (ServerMessage.init protocolVersion incidents' catalog') =>
      let (h1, out) :=
        match protocol_mismatch protocolVersion with
        | Some message => (setLastError h (Some message), [ onError message ])
        | None => (h, [])
        end in
      let h2 :=
        match incidents' with
        | Some l => dispatch h1 (Init l)
        | None => h1
        end in
      let h3 :=
        match catalog' with
        | Some c => setCatalog h2 c
        | None => h2
        end in
      (h3, out)
  | Parsed (ServerMessage.incidentAdded incident) =>
      (dispatch h (Add incident), [])
  | Parsed (ServerMessage.incidentUpdated incident) =>
      (dispatch h (Update incident), [])
  | Parsed (ServerMessage.readingIntervalUpdated intervalMs) =>
      let h1 := clearIntervalTimeout h in
      let pendingInterval := pendingIntervalRef h1 in
      let h2 := set_pending h1 None in
      match pendingInterval with
      | None =>
          let h3 :=
            if negb (bool_decide (intervalMs = readingIntervalMs h))
            then setReadingIntervalMs (set_suppress h2 true) intervalMs
            else h2 in
          (setLastError h3 None, [])
      | Some pending =>
          if negb (bool_decide (intervalMs = pending)) then
            let h3 := setReadingIntervalMs (set_suppress h2 true) intervalMs in
            let message := discrepancy intervalMs pending in
            (setLastError h3 (Some message), [ onError message ])
          else (setLastError h2 None, [])
      end
  | Parsed (ServerMessage.error code message) =>
      let message := default "Unexpected server error." message in
      (setLastError h (Some message), [ onError message ])
  end.

Definition onOpen (h : Hook) : Hook * list Output :=
  let h1 := setLastError (setConnectionStatus (set_socket h (Some OPEN)) connected)
              None in
  let (h2, out) := requestServerInterval h1 2000 in
  (h2, (out ++ [ onConnect ])%list).

Definition onClose (h : Hook) : Hook * list Output :=
  (setConnectionStatus (set_socket h (Some CLOSED)) disconnected,
   [ onDisconnect ]).

Definition deliver (h : Hook) (event : Frame ServerMessage.t) : Hook * list Output :=
  rerender (readingIntervalMs h) (handleMessage h event).

End Ack.

End Client.

(** ** One connected client on the wire *)

Module Wire.

(** The frames a connected client gets out of a handler's effects: every
    broadcast, and the private replies as well when it is the socket that
    sent the message.  [JSON.stringify] followed by [JSON.parse] and
    [safeParse] is taken to give the message back. *)
Definition frames (requester : bool) (effects : list Server.Effect)
  : list ServerMessage.t :=
  omap (fun e =>
          match e with
          | Server.broadcast m => Some m
          | Server.send m => if requester then Some m else None
          end)
       effects.

(** The client's message listener run on the frames in order. *)
Definition receive
    (handle : Client.Hook -> Frame ServerMessage.t
              -> Client.Hook * list Client.Output)
    (h : Client.Hook) (messages : list ServerMessage.t) : Client.Hook :=
  fold_left (fun h m => fst (handle h (Parsed m))) messages h.

(** What the listener puts out while doing so. *)
Definition outputs
    (handle : Client.Hook -> Frame ServerMessage.t
              -> Client.Hook * list Client.Output)
    (h : Client.Hook) (messages : list ServerMessage.t) : list Client.Output :=
  snd (fold_left
         (fun acc m =>
            let (h', out) := handle (fst acc) (Parsed m) in
            (h', (snd acc ++ out)%list))
         messages (h, [])).

(** A frame put on the socket. *)
Definition is_sent (o : Client.Output) : bool :=
  match o with Client.sent _ => true | _ => false end.

(** What a message does to the incident list a client shows. *)
Definition incidents_after (l : list Incident) (m : ServerMessage.t)
  : list Incident :=
  match m with
  | ServerMessage.init _ (Some snapshot) _ => snapshot
  | ServerMessage.incidentAdded incident =>
      Client.incidentsReducer l (Client.Add incident)
  | ServerMessage.incidentUpdated incident =>
      Client.incidentsReducer l (Client.Update incident)
  | _ => l
  end.

End Wire.

(** ** The incidents page ([features/incidents/pages/IncidentsPage.tsx]) *)

Module IncidentsPage.

(** [selectedIncidentType ? [selectedIncidentType] : []] *)
Definition selectedIncidentTypeIds (selectedIncidentType : string) : list string :=
  if truthy_string selectedIncidentType then [selectedIncidentType] else [].

(** [filteredNew], [filteredActive] and [filteredCompleted]. *)
Definition filtered (incidents : list Incident) (type : Filters.IncidentBucket)
    (selectedEscalation selectedIncidentType : string) : list Incident :=
  Filters.getIncidentsByType incidents type (Some selectedEscalation)
    (Some (selectedIncidentTypeIds selectedIncidentType)).

(** The [updated] object literal of [handleDrop]. *)
Definition updated (incident : Incident) (target : Filters.IncidentBucket)
  : Incident :=
  {| incidentId := incidentId incident; siteId := siteId incident;
     assetId := assetId incident; alarmId := alarmId incident;
     priority := priority incident; createdAt := createdAt incident;
     updatedAt := updatedAt incident;
     assignedTo :=
       match target with
       | Filters.new => null
       | _ =>
           match assignedTo incident with
           | value a => value a
           | _ => value "user-1"
           end
       end;
     stateId :=
       match target with
       | Filters.completed => INCIDENT_STATES.CLOSED
       | _ => INCIDENT_STATES.OPEN
       end;
     escalationLevelId := escalationLevelId incident;
     incidentTypeIds := incidentTypeIds incident;
     readings := readings incident |}.

(** update local state and send change over ws *)
Definition handleDrop (h : Client.Hook) (target : Filters.IncidentBucket)
    (incidentId' : string) : Client.Hook * list Client.Output :=
  match find (fun item => bool_decide (incidentId item = incidentId'))
             (Client.incidents h) with
  | None => (h, [])
  | Some incident => Client.updateIncident h (updated incident target)
  end.

(** buttons reuse same handler as drag drop for consistency *)
Definition handleMove (h : Client.Hook) (incidentId' : string)
    (target : Filters.IncidentBucket) : Client.Hook * list Client.Output :=
  handleDrop h target incidentId'.

End IncidentsPage.

(** ** The detail route ([app/AppRouter.tsx]) *)

Module AppRouter.

(** [incidents.find((item) => item.incidentId === incidentId)], where
    [incidentId] is the route parameter, possibly absent. *)
Definition detail_incident (incidents : list Incident)
    (incidentId' : option string) : option Incident :=
  find (fun item => bool_decide (Some (incidentId item) = incidentId')) incidents.

End AppRouter.

(** ** The create page ([features/incidents/pages/CreateIncidentPage.tsx]) *)

Module CreateIncidentPage.

(** [priority] is [None] when [Number(value)] gave [NaN]. *)
Record IncidentFormState := {
  form_incidentId : string;
  form_siteId : string;
  form_assetId : string;
  form_alarmId : string;
  form_priority : option Z;
  form_stateId : string;
  form_escalationLevelId : string;
  form_incidentTypeId : string
}.

Definition createEmptyForm : IncidentFormState :=
  {| form_incidentId := ""; form_siteId := ""; form_assetId := "";
     form_alarmId := ""; form_priority := Some 1%Z;
     form_stateId := INCIDENT_STATES.OPEN; form_escalationLevelId := "";
     form_incidentTypeId := "" |}.

(** The state of the page that [submitIncident] reads and writes.
    [fieldErrors] keeps the keys in the order they were set. *)
Record Page := {
  formState : IncidentFormState;
  incidentIdError : option string;
  fieldErrors : list (string * string);
  showSuccess : bool;
  successTimeoutArmed : bool
}.

Definition isIncidentIdValid (v : string) : bool :=
  Server.INCIDENT_ID_PATTERN_test v.

Definition id_error : string :=
  "Use 3-32 characters: letters, numbers, or hyphens.".

Definition validateForm (state : IncidentFormState) : list (string * string) :=
  ((if truthy_string (form_siteId state) then []
    else [("siteId", "Site is required.")])
   ++ (if truthy_string (form_assetId state) then []
       else [("assetId", "Asset is required.")])
   ++ (if truthy_string (form_alarmId state) then []
       else [("alarmId", "Alarm is required.")])
   ++ (if truthy_string (form_escalationLevelId state) then []
       else [("escalationLevelId", "Escalation level is required.")])
   ++ (if truthy_string (form_stateId state) then []
       else [("stateId", "State is required.")])
   ++ (if truthy_string (form_incidentTypeId state) then []
       else [("incidentTypeId", "Incident type is required.")])
   ++ (match form_priority state with
       | Some p =>
           if ((p <? 1) || (5 <? p))%Z
           then [("priority", "Priority must be between 1 and 5.")]
           else []
       | None => [("priority", "Priority must be between 1 and 5.")]
       end))%list.

Section Submit.

(** [String.prototype.trim], left uninterpreted. *)
Variable trim : string -> string.

(** build new incident payload and send it through the websocket *)
Definition submitIncident (page : Page) (h : Client.Hook)
  : Eff (Page * Client.Hook * list Client.Output) :=
  let form := formState page in
  let trimmedId := trim (form_incidentId form) in
  if truthy_string trimmedId && negb (isIncidentIdValid trimmedId) then
    ret ({| formState := form; incidentIdError := Some id_error;
            fieldErrors := fieldErrors page; showSuccess := showSuccess page;
            successTimeoutArmed := successTimeoutArmed page |}, h, [])
  else
    let! incidentId' :=
      if truthy_string trimmedId then ret trimmedId
      else let! now := Date_now in ret ("inc-" ++ pretty now) in
    let errors := validateForm form in
    match errors with
    | _ :: _ =>
        ret ({| formState := form; incidentIdError := incidentIdError page;
                fieldErrors := errors; showSuccess := showSuccess page;
                successTimeoutArmed := successTimeoutArmed page |}, h, [])
    | [] =>
        let! now := Date_now in
        let! stamp := iso now in
        let newIncident :=
          {| incidentId := incidentId'; siteId := form_siteId form;
             assetId := form_assetId form; alarmId := form_alarmId form;
             priority := default 0%Z (form_priority form);
             createdAt := stamp; updatedAt := None; assignedTo := undefined;
             stateId := form_stateId form;
             escalationLevelId := form_escalationLevelId form;
             incidentTypeIds :=
               Some (if truthy_string (form_incidentTypeId form)
                     then [form_incidentTypeId form] else []);
             readings := None |} in
        let (h', out) := Client.sendIncident h newIncident in
        ret ({| formState :=
                  {| form_incidentId := ""; form_siteId := form_siteId form;
                     form_assetId := form_assetId form;
                     form_alarmId := form_alarmId form;
                     form_priority := Some 1%Z;
                     form_stateId := form_stateId form;
                     form_escalationLevelId := form_escalationLevelId form;
                     form_incidentTypeId := form_incidentTypeId form |};
                incidentIdError := None; fieldErrors := [];
                showSuccess := true; successTimeoutArmed := true |},
             h', out)
    end.

End Submit.

End CreateIncidentPage.

(** ** The chart ([features/incidents/components/IncidentChart/IncidentChart.tsx]) *)

Module IncidentChart.

(** [Math.min(...values)] and [Math.max(...values)] of a list with a first
    element. *)
Definition Math_min (v : Q) (vs : list Q) : Q := fold_left Qmin vs v.
Definition Math_max (v : Q) (vs : list Q) : Q := fold_left Qmax vs v.

(** [temperatureBars] and [pressureBars], by the reading component they
    plot: normalize bar heights so visual scale adjusts to data range. *)
Definition bars (key : IncidentReading -> Q) (readings : list IncidentReading)
  : list (string * Q) :=
  match map key readings with
  | [] => []
  | v :: vs =>
      let min := Math_min v vs in
      let max := Math_max v vs in
      let range := Qmax (max - min) 1 in
      map (fun item => (timestamp item, ((key item - min) / range * 100)%Q))
          readings
  end.

End IncidentChart.

(** ** The generator in the engine's arithmetic

    [Server.createReading] computes with exact rationals, which is enough
    for whatever does not depend on the last digits of a reading.  The
    numbers the server stores are binary64 values: every [+], [-] and [*]
    rounds its exact result to the nearest double, and [Number(text)] is
    the double nearest to the decimal that [toFixed] printed.  [Binary64] is
    that arithmetic, a finite double being carried as the rational it
    denotes, and the generator once more with every step rounded as the
    engine rounds it. *)

Module Binary64.

(** [floor (log2 |x|)] for [x <> 0]: the difference of the bit lengths of
    numerator and denominator, or one less. *)
Definition binade (x : Q) : Z :=
  let e := (Z.log2 (Z.abs (Qnum x)) - Z.log2 (Z.pos (Qden x)))%Z in
  if Qle_bool (2 ^ e) (Qabs x) then e else (e - 1)%Z.

(** The unit in the last place at [x]: 53 significant bits, and no exponent
    below that of the subnormal numbers. *)
Definition ulp (x : Q) : Q := (2 ^ (Z.max (binade x) (-1022) - 52))%Q.

(** The nearest integer, the even one on a tie. *)
Definition nearest_even (y : Q) : Z :=
  let f := Qfloor y in
  match (y - inject_Z f ?= 1 # 2)%Q with
  | Lt => f
  | Gt => (f + 1)%Z
  | Eq => if Z.even f then f else (f + 1)%Z
  end.

(** Round to the nearest double, ties to even.  The result is the engine's
    whenever that is finite, that is for [|x| < 2^1024 - 2^970]; beyond, the
    engine gives [Infinity], which the generator never reaches from a finite
    reading. *)
Definition round (x : Q) : Q :=
  if Qeq_bool x 0 then 0%Q
  else Qred (inject_Z (nearest_even (x / ulp x)) * ulp x).

Definition add (x y : Q) : Q := round (x + y).
Definition sub (x y : Q) : Q := round (x - y).
Definition mul (x y : Q) : Q := round (x * y).

(** [Number(text)], for a text that denotes the decimal [d]. *)
Definition Number (d : Q) : Q := round d.

(** make a temp/pressure reading with some random drift; [toFixed] gives
    the decimal that is printed, [Number] the double that is stored. *)
Definition createReading (previous : option IncidentReading) : Eff IncidentReading :=
  let! temperatureBase :=
    match previous with
    | Some p => ret (temperature p)
    | None => let! r := Math_random in ret (add 68 (mul r 12))
    end in
  let! pressureBase :=
    match previous with
    | Some p => ret (pressure p)
    | None => let! r := Math_random in ret (add 18 (mul r 6))
    end in
  let! rt := Math_random in
  let temperature :=
    Number (toFixed 1 (add temperatureBase (sub (mul rt 4) 2))) in
  let! rp := Math_random in
  let pressure :=
    Number (toFixed 2 (add pressureBase (sub (mul rp 2) 1))) in
  let! now := Date_now in
  let! stamp := iso now in
  ret {| timestamp := stamp; temperature := temperature; pressure := pressure |}.

(** The [for] loop of [seedReadings]: [n] pushes onto [readings]. *)
Fixpoint push_readings (n : nat) (readings : list IncidentReading)
  : Eff (list IncidentReading) :=
  match n with
  | O => ret readings
  | S n' =>
      let previous := last readings in
      let! r := createReading previous in
      push_readings n' (readings ++ [r])
  end.

Definition seedReadings (incidents : list Incident) : Eff (list Incident) :=
  mapM (fun incident =>
          let! readings := push_readings Server.MAX_READINGS [] in
          ret (set_readings incident readings))
       incidents.

(** The incidents of the store at start-up: the array literal, then
    [seedReadings()]. *)
Definition seeded (w : World) : list Incident :=
  let (seeds, w1) := Server.seed_incidents w in
  fst (seedReadings seeds w1).

(** [x] is the value of the finite [f], a binary floating-point number of
    the Standard Library's IEEE 754 specification. *)
Definition same (f : spec_float) (x : Q) : bool :=
  match f with
  | S754_zero _ => Qeq_bool x 0
  | S754_finite s m e =>
      Qeq_bool x ((if s then -1 else 1) * inject_Z (Z.pos m) * 2 ^ e)%Q
  | _ => false
  end.

(** In that specification: the whole number [n], and the quotient [n / d]
    rounded at 53 bits, which is what reading the decimal [n / d] gives. *)
Definition whole (n : positive) : spec_float := S754_finite false n 0.

Definition decimal (n d : positive) : spec_float :=
  SFdiv 53 1024 (whole n) (whole d).

End Binary64.

(** ** Vocabulary for the generator's walks *)

(** [x] is the double nearest to [d], a number with the decimals of
    [scale]: what [Number(v.toFixed(f))] stores for the printed [d]. *)
Definition printed_as (scale : Z) (x d : Q) : Prop :=
  on_grid scale d = true /\ (x == Binary64.Number d)%Q.

(** The decimals printed for [b] are within the drift of those printed for
    [a]. *)
Definition decimal_drift (a b : IncidentReading) : Prop :=
  exists Ta Tb Pa Pb : Q,
    printed_as 10 (temperature a) Ta /\ printed_as 10 (temperature b) Tb
    /\ printed_as 100 (pressure a) Pa /\ printed_as 100 (pressure b) Pb
    /\ (Qabs (Tb - Ta) <= 2 /\ Qabs (Pb - Pa) <= 1)%Q.

(** Both components of [r] are printed values whose decimals have a
    magnitude of at most [bound]. *)
Definition printed_within (bound : Z) (r : IncidentReading) : Prop :=
  exists T P : Q,
    printed_as 10 (temperature r) T /\ printed_as 100 (pressure r) P
    /\ (Qabs T <= inject_Z bound /\ Qabs P <= inject_Z bound)%Q.

(** Every reading is within the drift of the one before it. *)
Fixpoint decimal_walk (rs : list IncidentReading) : Prop :=
  match rs with
  | a :: (b :: _) as rest => decimal_drift a b /\ decimal_walk rest
  | _ => True
  end.

(** What start-up leaves in every seeded incident: a full history whose
    first reading is printed within the seeding ranges widened by one
    drift, and which drifts within the bounds from there. *)
Definition seeded_walk (rs : list IncidentReading) : Prop :=
  length rs = Server.MAX_READINGS
  /\ decimal_walk rs
  /\ exists first T P,
       head rs = Some first
       /\ printed_as 10 (temperature first) T
       /\ printed_as 100 (pressure first) P
       /\ (66 <= T /\ T <= 82)%Q /\ (17 <= P /\ P <= 25)%Q.

(** * Sample values

    Concrete inputs on which the definitions above are run below. *)

Module Samples.

(** A world whose draws are all [u], whose clock advances one second per
    reading, and whose dates print as their millisecond count. *)
Definition constant_world (u : Q) : World :=
  {| random_draws := fun _ => u; random_next := 0;
     clock_ms := fun k => (1700000000000 + 1000 * Z.of_nat k)%Z; clock_next := 0;
     toISOString := fun ms => pretty ms |}.

(** [buildIncident] of [incidentFilters.test.ts]. *)
Definition buildIncident (id : string) (assignee : nullable string)
    (state escalation : string) (types : option (list string))
    (rs : option (list IncidentReading)) : Incident :=
  {| incidentId := id; siteId := "site-1"; assetId := "asset-1";
     alarmId := "alarm-1"; priority := 1;
     createdAt := "2026-01-01T00:00:00.000Z"; updatedAt := None;
     assignedTo := assignee; stateId := state;
     escalationLevelId := escalation; incidentTypeIds := types;
     readings := rs |}.

Definition new_1 : Incident :=
  buildIncident "new-1" undefined "OPEN" "esc-1" (Some ["type-a"]) None.
Definition active_1 : Incident :=
  buildIncident "active-1" (value "user-1") "OPEN" "esc-1" (Some ["type-a"]) None.
Definition completed_1 : Incident :=
  buildIncident "completed-1" undefined "CLOSED" "esc-2" (Some ["type-b"]) None.
Definition test_incidents : list Incident := [ new_1; active_1; completed_1 ].

(** An incident whose identifier is too short for the pattern. *)
Definition short_id : Incident :=
  buildIncident "a" undefined "OPEN" "esc-1" None None.

(** A hook with an open socket and a request for 500 ms outstanding. *)
Definition waiting_for_500 : Client.Hook :=
  {| Client.incidents := test_incidents; Client.catalog := Server.catalog;
     Client.connectionStatus := Client.connected;
     Client.readingIntervalMs := 500; Client.lastError := None;
     Client.socketRef := Some Client.OPEN;
     Client.pendingIntervalRef := Some 500%Z;
     Client.intervalTimeoutRef := true; Client.timeoutArmed := true;
     Client.suppressIntervalRequestRef := false |}.

(** An incident that reuses the identifier of a seeded one. *)
Definition second_1001 : Incident :=
  buildIncident "inc-1001" undefined "OPEN" "esc-1" None None.

Definition reading_70 : IncidentReading :=
  {| timestamp := "2026-01-01T00:00:00.000Z";
     temperature := (7004 # 100)%Q; pressure := 20%Q |}.

(** A reading as a client may supply it: the double nearest to 70.04. *)
Definition reading_70_04 : IncidentReading :=
  {| timestamp := "2026-01-01T00:00:00.000Z";
     temperature := Binary64.Number (7004 # 100);
     pressure := Binary64.Number (2012 # 100) |}.

(** A reading as the generator stores them: the doubles nearest to 64.4
    and 16.10. *)
Definition reading_64_4 : IncidentReading :=
  {| timestamp := "2026-01-01T00:00:00.000Z";
     temperature := Binary64.Number (644 # 10);
     pressure := Binary64.Number (1610 # 100) |}.

(** A generated reading: the doubles nearest to 70.3 and 20.12. *)
Definition reading_70_3 : IncidentReading :=
  {| timestamp := "2026-01-01T00:00:00.000Z";
     temperature := Binary64.Number (703 # 10);
     pressure := Binary64.Number (2012 # 100) |}.

(** An incident that arrives with 25 readings. *)
Definition long_history : Incident :=
  buildIncident "long-history" undefined "OPEN" "esc-1" None
    (Some (replicate 25 reading_70)).

(** The same hook after its socket closed. *)
Definition offline : Client.Hook :=
  Client.setConnectionStatus
    (Client.set_socket waiting_for_500 (Some Client.CLOSED))
    Client.disconnected.

End Samples.

(** * Scenarios

    A server just started and a client that has just received its
    snapshot. *)

Module Scenarios.

Definition server0 : Server.State :=
  Server.boot (Samples.constant_world (1 # 2)).

Definition client0 : Client.Hook :=
  Wire.receive Client.Ack.deliver Client.initial
    (Wire.frames true (Server.onConnection server0)).





End Scenarios.

(** * Properties *)

(** ** The client reducer *)

Section Reducer.
Import Client.

Variable incident : Incident.

Local Abbreviation same_id :=
  (fun item : Incident => bool_decide (incidentId item = incidentId incident)).
Local Abbreviation replace :=
  (fun item : Incident =>
     if bool_decide (incidentId item = incidentId incident)
     then incident else item).

Lemma replace_same_id item : same_id (replace item) = same_id item.
Proof.
  cbn. destruct (bool_decide (incidentId item = incidentId incident)) eqn:E;
    [by apply bool_decide_eq_true | exact E].
Qed.

Lemma replace_replace item : replace (replace item) = replace item.
Proof.
  cbn. destruct (bool_decide (incidentId item = incidentId incident)) eqn:E;
    [by rewrite bool_decide_eq_true_2 | by rewrite E].
Qed.

Lemma existsb_replace (l : list Incident) :
  existsb same_id (map replace l) = existsb same_id l.
Proof.
  induction l as [|item l IH]; [done|].
  cbn [map existsb]. by rewrite IH, (replace_same_id item).
Qed.

Lemma replace_absent (l : list Incident) :
  existsb same_id l = false -> map replace l = l.
Proof.
  induction l as [|item l IH]; [done|].
  cbn [map existsb]. intros [E1 E2]%orb_false_iff.
  rewrite (IH E2). by rewrite E1.
Qed.

Lemma reducer_update_unfold (state : list Incident) :
  incidentsReducer state (Update incident)
  = if existsb same_id state then map replace state else incident :: state.
Proof. unfold incidentsReducer. by destruct (existsb _ state). Qed.

Lemma reducer_update_twice (state : list Incident) :
  incidentsReducer (incidentsReducer state (Update incident)) (Update incident)
  = incidentsReducer state (Update incident).
Proof.
  rewrite !reducer_update_unfold.
  destruct (existsb same_id state) eqn:E.
  - rewrite existsb_replace, E.
    rewrite map_map. apply map_ext. intros a. apply replace_replace.
  - cbn [existsb map]. rewrite !bool_decide_eq_true_2 by done.
    cbn. by rewrite (replace_absent _ E).
Qed.

End Reducer.

(** C5.  Applying the same [incidentUpdated] event twice leaves the client's
    incident list as one application leaves it: the reducer's [Update]
    action is idempotent, and so is the message handler of either revision
    of the hook on the list it maintains. *)
Theorem update_idempotent (state : list Incident) (incident : Incident)
    (h : Client.Hook) :
  let event := Parsed (ServerMessage.incidentUpdated incident) in
  Client.incidentsReducer
    (Client.incidentsReducer state (Client.Update incident))
    (Client.Update incident)
  = Client.incidentsReducer state (Client.Update incident)
  /\ Client.incidents
       (fst (Client.Plain.handleMessage
               (fst (Client.Plain.handleMessage h event)) event))
     = Client.incidents (fst (Client.Plain.handleMessage h event))
  /\ Client.incidents
       (fst (Client.Ack.handleMessage
               (fst (Client.Ack.handleMessage h event)) event))
     = Client.incidents (fst (Client.Ack.handleMessage h event)).
Proof.
  cbn. repeat split; apply reducer_update_twice.
Qed.

(** ** Bucketing *)

Section Bucketing.
Import Filters.

Variables (incidents : list Incident) (esc : option string)
  (types : option (list string)).

Lemma getIncidentsByType_In (b : IncidentBucket) (i : Incident) :
  In i (getIncidentsByType incidents b esc types)
  <-> In i incidents /\ matchesFilter esc types i = true /\ in_bucket b i = true.
Proof.
  unfold getIncidentsByType. rewrite filter_In.
  destruct (matchesFilter esc types i); cbn; intuition congruence.
Qed.

Lemma open_not_closed : INCIDENT_STATES.OPEN <> INCIDENT_STATES.CLOSED.
Proof. discriminate. Qed.

End Bucketing.

(** C7.  Among the incidents that pass the escalation and incident-type
    filters, one that is [OPEN] with a falsy [assignedTo] (absent, [null] or
    empty) is listed under [new] and under no other bucket, one that is
    [OPEN] with an assignee is listed under [active] only, and one that is
    [CLOSED] is listed under [completed] only, whatever its [assignedTo]. *)
Theorem bucketing (incidents : list Incident) (esc : option string)
    (types : option (list string)) (i : Incident) :
  In i incidents ->
  Filters.matchesFilter esc types i = true ->
  let bucket b := Filters.getIncidentsByType incidents b esc types in
  (stateId i = INCIDENT_STATES.OPEN -> truthy (assignedTo i) = false ->
     In i (bucket Filters.new) /\ ~ In i (bucket Filters.active)
     /\ ~ In i (bucket Filters.completed))
  /\ (stateId i = INCIDENT_STATES.OPEN -> truthy (assignedTo i) = true ->
     ~ In i (bucket Filters.new) /\ In i (bucket Filters.active)
     /\ ~ In i (bucket Filters.completed))
  /\ (stateId i = INCIDENT_STATES.CLOSED ->
     ~ In i (bucket Filters.new) /\ ~ In i (bucket Filters.active)
     /\ In i (bucket Filters.completed)).
Proof.
  intros Hin Hf bucket. subst bucket. cbn beta.
  rewrite !getIncidentsByType_In. unfold Filters.in_bucket.
  split; [|split].
  - intros Hs Ha. rewrite Hs, Ha.
    rewrite (bool_decide_eq_true_2 (INCIDENT_STATES.OPEN = INCIDENT_STATES.OPEN)) by done.
    rewrite (bool_decide_eq_false_2 _ open_not_closed). cbn.
    intuition discriminate.
  - intros Hs Ha. rewrite Hs, Ha.
    rewrite (bool_decide_eq_true_2 (INCIDENT_STATES.OPEN = INCIDENT_STATES.OPEN)) by done.
    rewrite (bool_decide_eq_false_2 _ open_not_closed). cbn.
    intuition discriminate.
  - intros Hs. rewrite Hs.
    rewrite (bool_decide_eq_true_2 (INCIDENT_STATES.CLOSED = INCIDENT_STATES.CLOSED)) by done.
    rewrite (bool_decide_eq_false_2 (INCIDENT_STATES.CLOSED = INCIDENT_STATES.OPEN))
      by (intros E; by apply open_not_closed).
    cbn. intuition discriminate.
Qed.

(** An empty [assignedTo] string is falsy: such an open incident is listed
    under [new], like one whose [assignedTo] is [null] or absent. *)
Example empty_assignee_is_new :
  let i := Samples.buildIncident "inc-1" (value "") "OPEN" "esc-1" None None in
  map incidentId (Filters.getIncidentsByType [i] Filters.new None None)
    = ["inc-1"]
  /\ Filters.getIncidentsByType [i] Filters.active None None = [].
Proof. split; reflexivity. Qed.

(** The assertions of [incidentFilters.test.ts]. *)
Example unit_test_buckets :
  let ids l := map incidentId l in
  ids (Filters.getIncidentsByType Samples.test_incidents Filters.new
         (Some "esc-1") (Some ["type-a"])) = ["new-1"]
  /\ ids (Filters.getIncidentsByType Samples.test_incidents Filters.active
            (Some "esc-1") (Some ["type-a"])) = ["active-1"]
  /\ ids (Filters.getIncidentsByType Samples.test_incidents Filters.completed
            (Some "esc-2") (Some ["type-b"])) = ["completed-1"].
Proof. repeat split; reflexivity. Qed.

(** The three incidents of the unit test land where the test expects. *)
Lemma bucketing_witness :
  let bucket l b := map incidentId
    (Filters.getIncidentsByType l b (Some "esc-1") (Some ["type-a"])) in
  (In Samples.new_1 (Filters.getIncidentsByType Samples.test_incidents
                       Filters.new (Some "esc-1") (Some ["type-a"]))
   /\ ~ In Samples.new_1 (Filters.getIncidentsByType Samples.test_incidents
                            Filters.active (Some "esc-1") (Some ["type-a"]))
   /\ ~ In Samples.new_1 (Filters.getIncidentsByType Samples.test_incidents
                            Filters.completed (Some "esc-1") (Some ["type-a"])))
  /\ bucket Samples.test_incidents Filters.new = ["new-1"]
  /\ bucket Samples.test_incidents Filters.active = ["active-1"].
Proof.
  split; [|split; reflexivity].
  refine (proj1 (bucketing Samples.test_incidents (Some "esc-1")
                   (Some ["type-a"]) Samples.new_1 _ _) _ _).
  - simpl. left. reflexivity.
  - reflexivity.
  - reflexivity.
  - reflexivity.
Defined.

(** ** The hook's callbacks *)

(** C9.  While the socket is not in the [OPEN] state (or does not exist
    yet), [sendIncident] puts nothing on the wire and returns the hook
    state as it was: no queueing, no error. *)
Theorem sendIncident_closed_noop (h : Client.Hook) (incident : Incident) :
  Client.socket_open h = false ->
  Client.sendIncident h incident = (h, []).
Proof. intros E. unfold Client.sendIncident. by rewrite E. Qed.

Lemma sendIncident_closed_noop_witness :
  Client.sendIncident Samples.offline Samples.new_1 = (Samples.offline, []).
Proof.
  apply (sendIncident_closed_noop Samples.offline Samples.new_1).
  reflexivity.
Defined.

Lemma dispatch_socket_open (h : Client.Hook) (a : Client.IncidentAction) :
  Client.socket_open (Client.dispatch h a) = Client.socket_open h.
Proof. reflexivity. Qed.

(** ** The message handler of the hook *)

(** C8, as the code has it.  A frame that is JSON but not a message of the
    contract (an unknown [type] included) leaves the incident list, the
    catalog and the reading interval untouched, but it is not silent:
    [lastError] becomes the unexpected-shape text, and the later revision
    also reports it to [onError].  Only a frame that is not JSON at all is
    dropped without a trace. *)
Theorem bad_shape_sets_lastError (h : Client.Hook) :
  let plain := Client.Plain.handleMessage h BadShape in
  let ack := Client.Ack.handleMessage h BadShape in
  fst plain = Client.setLastError h (Some Client.unexpected_shape)
  /\ fst ack = Client.setLastError h (Some Client.unexpected_shape)
  /\ Client.incidents (fst plain) = Client.incidents h
  /\ Client.catalog (fst plain) = Client.catalog h
  /\ Client.readingIntervalMs (fst plain) = Client.readingIntervalMs h
  /\ Client.lastError (fst plain) = Some Client.unexpected_shape
  /\ snd plain = []
  /\ snd ack = [ Client.onError Client.unexpected_shape ]
  /\ Client.Plain.handleMessage h NotJson = (h, [])
  /\ Client.Ack.handleMessage h NotJson = (h, []).
Proof. cbn. repeat split. Qed.

(** C8 as stated fails: on a frame of the wrong shape a hook without an
    error does not keep [lastError] as it was. *)
Lemma bad_shape_not_silent :
  Client.lastError (fst (Client.Plain.handleMessage Client.initial BadShape))
    <> Client.lastError Client.initial
  /\ Client.lastError (fst (Client.Ack.handleMessage Client.initial BadShape))
    <> Client.lastError Client.initial
  /\ snd (Client.Ack.handleMessage Client.initial BadShape) <> [].
Proof. cbn. repeat split; discriminate. Qed.

Lemma clearIntervalTimeout_fields (h : Client.Hook) :
  Client.pendingIntervalRef (Client.clearIntervalTimeout h)
    = Client.pendingIntervalRef h
  /\ Client.readingIntervalMs (Client.clearIntervalTimeout h)
    = Client.readingIntervalMs h
  /\ Client.incidents (Client.clearIntervalTimeout h) = Client.incidents h
  /\ Client.lastError (Client.clearIntervalTimeout h) = Client.lastError h.
Proof.
  unfold Client.clearIntervalTimeout.
  by destruct (Client.intervalTimeoutRef h).
Qed.

(** What the later revision does with an acknowledgement that differs from
    the pending request. *)
Lemma ack_mismatch_unfold (h : Client.Hook) (X Y : Z) :
  Client.pendingIntervalRef h = Some X -> Y <> X ->
  Client.Ack.handleMessage h (Parsed (ServerMessage.readingIntervalUpdated Y))
  = (Client.setLastError
       (Client.setReadingIntervalMs
          (Client.set_suppress
             (Client.set_pending (Client.clearIntervalTimeout h) None) true)
          Y)
       (Some (Client.Ack.discrepancy Y X)),
     [ Client.onError (Client.Ack.discrepancy Y X) ]).
Proof.
  intros HX HY. unfold Client.Ack.handleMessage.
  destruct (clearIntervalTimeout_fields h) as (-> & _).
  rewrite HX. by rewrite bool_decide_eq_false_2.
Qed.

(** The shorter revision adopts the server's value and clears the pending
    request as well, but it clears [lastError] instead of setting it. *)
Lemma plain_interval_update (h : Client.Hook) (Y : Z) :
  let r := Client.Plain.deliver h
             (Parsed (ServerMessage.readingIntervalUpdated Y)) in
  Client.readingIntervalMs (fst r) = Y
  /\ Client.pendingIntervalRef (fst r) = None
  /\ Client.lastError (fst r) = None
  /\ snd r = [].
Proof.
  cbn zeta. unfold Client.Plain.deliver, Client.Plain.handleMessage.
  destruct (clearIntervalTimeout_fields h) as (E1 & E2 & _).
  case_bool_decide as E; cbn [negb].
  - unfold Client.rerender. rewrite bool_decide_eq_true_2 by (cbn; congruence).
    cbn. rewrite E2. done.
  - unfold Client.rerender. rewrite bool_decide_eq_false_2 by (cbn; congruence).
    cbn. done.
Qed.

(** The later revision with an acknowledgement that differs from the
    pending request, after the render that follows. *)
Lemma ack_mismatch_deliver (h : Client.Hook) (X Y : Z) :
  Client.pendingIntervalRef h = Some X -> Y <> X ->
  let r := Client.Ack.deliver h
             (Parsed (ServerMessage.readingIntervalUpdated Y)) in
  Client.readingIntervalMs (fst r) = Y
  /\ Client.pendingIntervalRef (fst r) = None
  /\ Client.lastError (fst r) = Some (Client.Ack.discrepancy Y X)
  /\ snd r = [ Client.onError (Client.Ack.discrepancy Y X) ].
Proof.
  intros HX HY. cbn zeta. unfold Client.Ack.deliver.
  rewrite (ack_mismatch_unfold h X Y HX HY).
  unfold Client.rerender. case_bool_decide; done.
Qed.

(** The handler of the shorter revision alone. *)
Lemma plain_interval_handler (h : Client.Hook) (Y : Z) :
  let r := Client.Plain.handleMessage h
             (Parsed (ServerMessage.readingIntervalUpdated Y)) in
  Client.readingIntervalMs (fst r) = Y
  /\ Client.pendingIntervalRef (fst r) = None
  /\ Client.lastError (fst r) = None
  /\ snd r = [].
Proof.
  cbn zeta. unfold Client.Plain.handleMessage.
  destruct (clearIntervalTimeout_fields h) as (E1 & E2 & _).
  case_bool_decide as E; cbn; [|done]. by rewrite E2.
Qed.

Lemma prefix_append (s t : string) : String.prefix s (s ++ t) = true.
Proof.
  induction s as [|a s IH]; [by destruct t|].
  change (String a s ++ t) with (String a (s ++ t)). cbn [String.prefix].
  by destruct (ascii_dec a a).
Qed.

(** C3, as the code has it.  When a request for [X] is pending and
    [readingIntervalUpdated] arrives with [Y <> X], both revisions of the
    hook adopt [Y] as the local [readingIntervalMs] and clear the pending
    request, and neither sends a new [setReadingInterval], also not in the
    render that follows.  They differ in [lastError]: the later revision
    sets it to the discrepancy warning and reports the same text to
    [onError]; the shorter revision clears it, so that no warning is
    present.  The warning reads "Server interval is Yms, expected Xms.",
    the numbers being printed in plain digits for whole numbers of
    milliseconds up to 2^53. *)
Theorem interval_authority (h : Client.Hook) (X Y : Z) :
  Client.pendingIntervalRef h = Some X ->
  Y <> X ->
  let event := Parsed (ServerMessage.readingIntervalUpdated Y) in
  let adopted (r : Client.Hook * list Client.Output) :=
    Client.readingIntervalMs (fst r) = Y
    /\ Client.pendingIntervalRef (fst r) = None
    /\ Forall (fun o => Wire.is_sent o = false) (snd r) in
  (adopted (Client.Ack.handleMessage h event)
   /\ adopted (Client.Ack.deliver h event)
   /\ exists warning,
        Client.lastError (fst (Client.Ack.handleMessage h event)) = Some warning
        /\ Client.lastError (fst (Client.Ack.deliver h event)) = Some warning
        /\ snd (Client.Ack.deliver h event) = [ Client.onError warning ]
        /\ String.prefix "Server interval is " warning = true
        /\ ((Z.abs X <= 2 ^ 53)%Z -> (Z.abs Y <= 2 ^ 53)%Z ->
            warning = "Server interval is " ++ pretty Y ++ "ms, expected "
                      ++ pretty X ++ "ms."))
  /\ (adopted (Client.Plain.handleMessage h event)
      /\ adopted (Client.Plain.deliver h event)
      /\ Client.lastError (fst (Client.Plain.handleMessage h event)) = None
      /\ Client.lastError (fst (Client.Plain.deliver h event)) = None
      /\ snd (Client.Plain.deliver h event) = []).
Proof.
  intros HX HY event adopted. subst event adopted. cbn beta.
  destruct (ack_mismatch_deliver h X Y HX HY) as (A1 & A2 & A3 & A4).
  destruct (plain_interval_update h Y) as (P1 & P2 & P3 & P4).
  destruct (plain_interval_handler h Y) as (Q1 & Q2 & Q3 & Q4).
  cbn zeta in A1, A2, A3, A4, P1, P2, P3, P4, Q1, Q2, Q3, Q4.
  rewrite A4, P4, Q4. rewrite (ack_mismatch_unfold h X Y HX HY). cbn [fst snd].
  split.
  - split; [|split].
    + repeat split. by repeat constructor.
    + split; [exact A1|]. split; [exact A2|]. by repeat constructor.
    + exists (Client.Ack.discrepancy Y X).
      split; [reflexivity|]. split; [exact A3|]. split; [reflexivity|].
      split; [apply prefix_append|]. intros _ _. reflexivity.
  - split; [|split; [|split; [|split]]].
    + split; [exact Q1|]. split; [exact Q2|]. constructor.
    + split; [exact P1|]. split; [exact P2|]. constructor.
    + exact Q3.
    + exact P3.
    + reflexivity.
Qed.

Lemma interval_authority_witness :
  let h := Samples.waiting_for_500 in
  let event := Parsed (ServerMessage.readingIntervalUpdated 1000) in
  let adopted (r : Client.Hook * list Client.Output) :=
    Client.readingIntervalMs (fst r) = 1000%Z
    /\ Client.pendingIntervalRef (fst r) = None
    /\ Forall (fun o => Wire.is_sent o = false) (snd r) in
  (adopted (Client.Ack.handleMessage h event)
   /\ adopted (Client.Ack.deliver h event)
   /\ exists warning,
        Client.lastError (fst (Client.Ack.handleMessage h event)) = Some warning
        /\ Client.lastError (fst (Client.Ack.deliver h event)) = Some warning
        /\ snd (Client.Ack.deliver h event) = [ Client.onError warning ]
        /\ String.prefix "Server interval is " warning = true
        /\ ((Z.abs 500 <= 2 ^ 53)%Z -> (Z.abs 1000 <= 2 ^ 53)%Z ->
            warning = "Server interval is " ++ pretty 1000%Z ++ "ms, expected "
                      ++ pretty 500%Z ++ "ms."))
  /\ (adopted (Client.Plain.handleMessage h event)
      /\ adopted (Client.Plain.deliver h event)
      /\ Client.lastError (fst (Client.Plain.handleMessage h event)) = None
      /\ Client.lastError (fst (Client.Plain.deliver h event)) = None
      /\ snd (Client.Plain.deliver h event) = []).
Proof.
  apply (interval_authority Samples.waiting_for_500 500 1000).
  - reflexivity.
  - discriminate.
Defined.

(** C3 as stated fails on the shorter revision of the hook: with a request
    for 500 pending and an acknowledgement of 1000, the local interval
    becomes 1000 and the request is cleared, but [lastError] is empty
    afterwards, where a warning from before would have been erased too. *)
Lemma mismatch_not_reported :
  let h := Client.setLastError Samples.waiting_for_500 (Some "stale") in
  let r := Client.Plain.handleMessage h
             (Parsed (ServerMessage.readingIntervalUpdated 1000)) in
  Client.pendingIntervalRef h = Some 500%Z
  /\ Client.readingIntervalMs (fst r) = 1000%Z
  /\ Client.pendingIntervalRef (fst r) = None
  /\ Client.lastError (fst r) = None
  /\ Client.lastError (fst (Client.Plain.handleMessage Samples.waiting_for_500
                              (Parsed (ServerMessage.readingIntervalUpdated 1000))))
     = None
  /\ snd r = [].
Proof. cbn. repeat split. Qed.

(** ** The server: identifier check *)

Example pattern_rejects_short : Server.INCIDENT_ID_PATTERN_test "a" = false.
Proof. reflexivity. Qed.

Example pattern_accepts_mixed_case :
  Server.INCIDENT_ID_PATTERN_test "Test-Incident" = true.
Proof. reflexivity. Qed.

Example pattern_rejects_underscore :
  Server.INCIDENT_ID_PATTERN_test "inc_1001" = false.
Proof. reflexivity. Qed.

Example pattern_rejects_33 :
  Server.INCIDENT_ID_PATTERN_test "abcdefghijklmnopqrstuvwxyz0123456" = false.
Proof. reflexivity. Qed.


(** C4.  An [addIncident] whose identifier fails the pattern is answered on
    the requesting socket with an [error] carrying [INVALID_INCIDENT_ID];
    the server state, and with it the incident list, is returned as it was,
    and nothing is broadcast. *)
Theorem invalid_id_rejected (s : Server.State) (incident : Incident) :
  Server.INCIDENT_ID_PATTERN_test (incidentId incident) = false ->
  let r := Server.onMessage s (Parsed (ClientMessage.addIncident incident)) in
  fst r = s
  /\ Server.incidents (fst r) = Server.incidents s
  /\ length (Server.incidents (fst r)) = length (Server.incidents s)
  /\ snd r = [ Server.send
                 (ServerMessage.error (Some "INVALID_INCIDENT_ID")
                    (Some "Incident ID must be 3-32 characters: letters, numbers, or hyphens.")) ]
  /\ Forall (fun e => forall m, e <> Server.broadcast m) (snd r).
Proof.
  intros E. cbn. unfold Server.handle_addIncident. rewrite E. cbn.
  repeat split. by repeat constructor.
Qed.

Lemma invalid_id_rejected_witness :
  let s := Server.boot (Samples.constant_world (1 # 2)) in
  let r := Server.onMessage s (Parsed (ClientMessage.addIncident Samples.short_id)) in
  fst r = s
  /\ Server.incidents (fst r) = Server.incidents s
  /\ length (Server.incidents (fst r)) = length (Server.incidents s)
  /\ snd r = [ Server.send
                 (ServerMessage.error (Some "INVALID_INCIDENT_ID")
                    (Some "Incident ID must be 3-32 characters: letters, numbers, or hyphens.")) ]
  /\ Forall (fun e => forall m, e <> Server.broadcast m) (snd r).
Proof.
  apply (invalid_id_rejected
           (Server.boot (Samples.constant_world (1 # 2))) Samples.short_id).
  reflexivity.
Defined.

(** ** The server: identifiers in the store *)

Lemma set_readings_id (i : Incident) (rs : list IncidentReading) :
  incidentId (set_readings i rs) = incidentId i.
Proof. reflexivity. Qed.

Lemma mapM_ids (f : Incident -> Eff Incident) :
  (forall a w, incidentId (fst (f a w)) = incidentId a) ->
  forall l w, map incidentId (fst (mapM f l w)) = map incidentId l.
Proof.
  intros Hf l. induction l as [|a l IH]; intros w; [done|].
  cbn. unfold bind. specialize (Hf a w).
  destruct (f a w) as [b w1]. specialize (IH w1).
  destruct (mapM f l w1) as [bs w2]. cbn in *. by rewrite Hf, IH.
Qed.

Lemma advance_id (a : Incident) (w : World) :
  incidentId (fst (Server.advance a w)) = incidentId a.
Proof.
  unfold Server.advance, bind.
  by destruct (Server.createReading _ w).
Qed.

Lemma tick_ids (s : Server.State) :
  Server.ids (fst (Server.tick s)) = Server.ids s.
Proof.
  unfold Server.tick, Server.ids.
  pose proof (mapM_ids Server.advance advance_id (Server.incidents s)
                (Server.world s)) as H.
  by destruct (mapM Server.advance _ _).
Qed.

Lemma boot_ids (w : World) :
  Server.ids (Server.boot w) = ["inc-1001"; "inc-1002"; "inc-1003"; "inc-1004"].
Proof.
  unfold Server.boot, Server.ids.
  destruct (Server.seed_incidents w) as [seeds w1] eqn:Es.
  assert (Hs : map incidentId seeds
               = ["inc-1001"; "inc-1002"; "inc-1003"; "inc-1004"]).
  { replace seeds with (fst (Server.seed_incidents w)) by (by rewrite Es).
    reflexivity. }
  unfold Server.seedReadings.
  match goal with
  | |- context [mapM ?f seeds w1] =>
      pose proof (mapM_ids f) as H; specialize (H ltac:(
        intros a w'; unfold bind;
        by destruct (Server.push_readings _ _ w')) seeds w1);
      destruct (mapM f seeds w1)
  end.
  cbn in *. by rewrite H.
Qed.

Lemma seeded_ids_NoDup :
  NoDup ["inc-1001"; "inc-1002"; "inc-1003"; "inc-1004"].
Proof. refine (bool_decide_unpack _ _). vm_compute. exact I. Qed.

Lemma findIndex_Some (id : string) (l : list Incident) (k : nat) :
  Server.findIndex id l = Some k ->
  exists x, l !! k = Some x /\ incidentId x = id.
Proof.
  unfold Server.findIndex. intros H.
  destruct (list_find _ l) as [[k' x]|] eqn:E; [|done].
  cbn in H. injection H as ->.
  apply list_find_Some in E as (? & ? & _). eauto.
Qed.

Lemma findIndex_None (id : string) (l : list Incident) :
  Server.findIndex id l = None -> id ∉ map incidentId l.
Proof.
  unfold Server.findIndex. intros H.
  destruct (list_find _ l) as [[k' x]|] eqn:E; [done|].
  apply list_find_None in E.
  intros Hin. change (map incidentId l) with (incidentId <$> l) in Hin.
  apply list_elem_of_fmap in Hin as (x & -> & Hx).
  rewrite Forall_forall in E. by apply (E x).
Qed.

(** An update never changes which identifiers are stored when the
    identifier is known, and prepends it otherwise. *)
Lemma update_ids (s : Server.State) (incident : Incident) :
  Server.ids (fst (Server.handle_updateIncident s incident))
  = match Server.findIndex (incidentId incident) (Server.incidents s) with
    | Some _ => Server.ids s
    | None => incidentId incident :: Server.ids s
    end.
Proof.
  unfold Server.handle_updateIncident, Server.ids. cbn.
  destruct (Server.findIndex _ _) as [k|] eqn:E; [|done].
  apply findIndex_Some in E as (x & Hk & Hx).
  change (map incidentId ?l) with (incidentId <$> l).
  rewrite list_fmap_insert. apply list_insert_id.
  by rewrite list_lookup_fmap, Hk, <- Hx.
Qed.

(** An accepted add puts its identifier in front, present or not. *)
Lemma add_ids (s : Server.State) (incident : Incident) :
  Server.INCIDENT_ID_PATTERN_test (incidentId incident) = true ->
  Server.ids (fst (Server.handle_addIncident s incident))
  = incidentId incident :: Server.ids s.
Proof.
  intros E. unfold Server.handle_addIncident. rewrite E. cbn [negb].
  destruct (readings incident) as [[|r rs]|]; cbn;
    try destruct (Server.createReading _ _); reflexivity.
Qed.

Lemma step_NoDup (s : Server.State) (e : Server.Event) :
  Server.adds_fresh_id s e = true ->
  NoDup (Server.ids s) -> NoDup (Server.ids (fst (Server.step s e))).
Proof.
  intros Hg Hs.
  destruct e as [[| |[incident|incident|ms]]|];
    cbn [Server.step Server.onMessage fst]; try done.
  - cbn in Hg.
    destruct (Server.INCIDENT_ID_PATTERN_test (incidentId incident)) eqn:E.
    + rewrite (add_ids _ _ E). cbn in Hg. apply bool_decide_eq_true in Hg.
      by constructor.
    + unfold Server.handle_addIncident. by rewrite E.
  - rewrite update_ids.
    destruct (Server.findIndex _ _) eqn:E; [done|].
    constructor; [|done]. by apply findIndex_None.
  - by rewrite tick_ids.
Qed.

Lemma run_NoDup (es : list Server.Event) (s : Server.State) :
  Server.fresh_adds s es = true ->
  NoDup (Server.ids s) -> NoDup (Server.ids (Server.run s es)).
Proof.
  revert s. induction es as [|e es IH]; intros s Hg Hs; [done|].
  cbn in Hg. apply andb_true_iff in Hg as [Hg1 Hg2].
  cbn. apply IH; [done|]. by apply step_NoDup.
Qed.

Lemma fresh_adds_take (es : list Server.Event) (s : Server.State) (k : nat) :
  Server.fresh_adds s es = true -> Server.fresh_adds s (take k es) = true.
Proof.
  revert s k. induction es as [|e es IH]; intros s k Hg; [by destruct k|].
  destruct k as [|k]; [done|].
  cbn in *. apply andb_true_iff in Hg as [Hg1 Hg2].
  rewrite Hg1. cbn. by apply IH.
Qed.

(** C1, as the code has it.  Starting from the seeded store, after every
    prefix of a run of messages and ticks in which each accepted
    [addIncident] carries an identifier that is not in the store when it
    arrives, the stored identifiers are pairwise distinct; [updateIncident]
    and the tick never introduce a duplicate.  An accepted [addIncident] is
    prepended without looking the identifier up, so one that reuses a stored
    identifier adds a second entry with it. *)
Theorem ids_unique_while_adds_are_fresh (w : World) (es : list Server.Event)
    (k : nat) :
  Server.fresh_adds (Server.boot w) es = true ->
  NoDup (Server.ids (Server.run (Server.boot w) (take k es)))
  /\ (forall s incident,
        Server.INCIDENT_ID_PATTERN_test (incidentId incident) = true ->
        Server.ids (fst (Server.onMessage s
                           (Parsed (ClientMessage.addIncident incident))))
        = incidentId incident :: Server.ids s).
Proof.
  intros Hg. split.
  - apply run_NoDup; [by apply fresh_adds_take|].
    rewrite boot_ids. exact seeded_ids_NoDup.
  - intros s incident E. by apply add_ids.
Qed.

(** A run that adds a new incident, moves a seeded one to another state,
    lets the timer fire and sends a malformed frame. *)
Lemma ids_unique_while_adds_are_fresh_witness :
  let es := [ Server.Message (Parsed (ClientMessage.addIncident Samples.new_1));
              Server.Message (Parsed (ClientMessage.updateIncident
                                        Samples.second_1001));
              Server.Tick;
              Server.Message BadShape ] in
  NoDup (Server.ids (Server.run (Server.boot (Samples.constant_world (1 # 2)))
                       (take 3 es))).
Proof.
  refine (proj1 (ids_unique_while_adds_are_fresh
                   (Samples.constant_world (1 # 2)) _ 3 _)).
  vm_compute. reflexivity.
Defined.

(** C1 as stated fails: the seeded store has distinct identifiers, and one
    accepted [addIncident] for ["inc-1001"] leaves two entries with it. *)
Lemma duplicate_id_after_add :
  let s0 := Server.boot (Samples.constant_world (1 # 2)) in
  let s1 := fst (Server.onMessage s0
                   (Parsed (ClientMessage.addIncident Samples.second_1001))) in
  NoDup (Server.ids s0)
  /\ Server.ids s1
     = ["inc-1001"; "inc-1001"; "inc-1002"; "inc-1003"; "inc-1004"]
  /\ ~ NoDup (Server.ids s1).
Proof.
  cbn zeta. cbn [Server.onMessage].
  rewrite add_ids by reflexivity. rewrite boot_ids.
  split; [exact seeded_ids_NoDup|].
  split; [reflexivity|].
  intros H. apply NoDup_cons in H as [H _]. apply H. by left.
Qed.

(** ** The server: reading histories *)

Lemma slice_last_length {A} (n : nat) (l : list A) :
  length (slice_last n l) = Nat.min n (length l).
Proof. unfold slice_last. rewrite length_drop. lia. Qed.

Lemma slice_last_short {A} (n : nat) (l : list A) :
  length l <= n -> slice_last n l = l.
Proof.
  intros H. unfold slice_last. by replace (length l - n) with 0 by lia.
Qed.

(** Truncating before appending loses nothing that truncating afterwards
    would keep. *)
Lemma slice_last_app {A} (n : nat) (l gen : list A) :
  slice_last n (slice_last n l ++ gen) = slice_last n (l ++ gen).
Proof.
  destruct (decide (length l <= n)) as [H|H].
  - by rewrite (slice_last_short n l H).
  - unfold slice_last.
    rewrite !length_app, length_drop, !drop_app, drop_drop, length_drop.
    f_equal; f_equal; lia.
Qed.

Lemma last_slice_last {A} (n : nat) (l : list A) :
  0 < n -> last (slice_last n l) = last l.
Proof.
  intros Hn. unfold slice_last.
  destruct (decide (l = [])) as [->|Hl]; [done|].
  rewrite <- (take_drop (length l - n) l) at 3.
  rewrite last_app.
  destruct (last (drop (length l - n) l)) eqn:E; [done|].
  apply last_None in E. apply (f_equal length) in E.
  rewrite length_drop in E. cbn in E.
  destruct l; [done|]. cbn in E. lia.
Qed.

Lemma mapM_Forall2 {A B} (R : A -> B -> Prop) (f : A -> Eff B) :
  (forall a w, R a (fst (f a w))) ->
  forall l w, Forall2 R l (fst (mapM f l w)).
Proof.
  intros Hf l. induction l as [|a l IH]; intros w; [by constructor|].
  cbn. unfold bind. specialize (Hf a w).
  destruct (f a w) as [b w1]. specialize (IH w1).
  destruct (mapM f l w1) as [bs w2]. by constructor.
Qed.

Lemma advance_advanced (i : Incident) (w : World) :
  Server.advanced i (fst (Server.advance i w)).
Proof.
  unfold Server.advanced, Server.advance, bind, Server.history.
  exists (fst (Server.createReading (last (default [] (readings i))) w)).
  split; [by exists w|].
  by destruct (Server.createReading _ w).
Qed.

Lemma tick_advanced (s : Server.State) :
  Forall2 Server.advanced (Server.incidents s) (Server.incidents (fst (Server.tick s))).
Proof.
  unfold Server.tick.
  pose proof (mapM_Forall2 Server.advanced Server.advance advance_advanced
                (Server.incidents s) (Server.world s)) as H.
  by destruct (mapM Server.advance _ _).
Qed.

Lemma advanced_length (i i' : Incident) :
  Server.advanced i i' ->
  1 <= length (Server.history i') <= Server.MAX_READINGS.
Proof.
  intros (r & _ & ->).
  change (Server.history (set_readings i ?x)) with x.
  rewrite slice_last_length, length_app. unfold Server.MAX_READINGS.
  cbn [length]. lia.
Qed.

Lemma tick_bounded (s : Server.State) :
  Forall (fun i => 1 <= length (Server.history i) <= Server.MAX_READINGS)
         (Server.incidents (fst (Server.tick s))).
Proof.
  pose proof (tick_advanced s) as H.
  induction H as [|i i' l l' Hi _ IH]; constructor; [|done].
  by apply (advanced_length i).
Qed.

Lemma push_readings_length (n : nat) (acc : list IncidentReading) (w : World) :
  length (fst (Server.push_readings n acc w)) = n + length acc.
Proof.
  revert acc w. induction n as [|n IH]; intros acc w; [done|].
  cbn. unfold bind. destruct (Server.createReading _ w) as [r w1].
  rewrite IH, length_app. cbn. lia.
Qed.

Lemma mapM_Forall {A B} (P : B -> Prop) (f : A -> Eff B) :
  (forall a w, P (fst (f a w))) ->
  forall l w, Forall P (fst (mapM f l w)).
Proof.
  intros Hf l. induction l as [|a l IH]; intros w; [by constructor|].
  cbn [mapM]. unfold bind at 1. specialize (Hf a w).
  destruct (f a w) as [b w1]. specialize (IH w1).
  unfold bind at 1. destruct (mapM f l w1) as [bs w2]. by constructor.
Qed.

Lemma seedReadings_full (l : list Incident) (w : World) :
  Forall (fun i => length (Server.history i) = Server.MAX_READINGS)
         (fst (Server.seedReadings l w)).
Proof.
  unfold Server.seedReadings. apply mapM_Forall. clear l w.
  intros a w. unfold bind.
  pose proof (push_readings_length Server.MAX_READINGS [] w) as Hn.
  destruct (Server.push_readings Server.MAX_READINGS [] w) as [rs w1].
  cbn [fst ret] in *.
  change (Server.history (set_readings a rs)) with rs.
  rewrite Hn. cbn [length]. lia.
Qed.

(** Every seeded incident starts with exactly [MAX_READINGS] readings. *)
Lemma boot_full (w : World) :
  Forall (fun i => length (Server.history i) = Server.MAX_READINGS)
         (Server.incidents (Server.boot w)).
Proof.
  unfold Server.boot.
  destruct (Server.seed_incidents w) as [seeds w1].
  pose proof (seedReadings_full seeds w1) as H.
  by destruct (Server.seedReadings seeds w1).
Qed.

Lemma boot_bounded (w : World) : Server.bounded_history (Server.boot w).
Proof.
  unfold Server.bounded_history.
  eapply Forall_impl; [apply boot_full|]. cbn. intros i ->. done.
Qed.

Lemma step_bounded (s : Server.State) (e : Server.Event) :
  Server.carries_bounded e = true ->
  Server.bounded_history s -> Server.bounded_history (fst (Server.step s e)).
Proof.
  unfold Server.bounded_history. intros Hg Hs.
  destruct e as [[| |[incident|incident|ms]]|];
    cbn [Server.step Server.onMessage fst]; try done.
  - cbn in Hg. unfold Server.handle_addIncident.
    destruct (Server.INCIDENT_ID_PATTERN_test _); cbn [negb]; [|done].
    cbn in Hg. apply bool_decide_eq_true in Hg.
    destruct (readings incident) as [[|r rs]|] eqn:E.
    + destruct (Server.createReading _ (Server.world s)) as [r w'].
      cbn [fst Server.incidents Server.with_world Server.with_incidents].
      constructor; [|done].
      change (Server.history (set_readings incident [r])) with [r].
      unfold Server.MAX_READINGS. cbn [length]. lia.
    + cbn [fst Server.incidents Server.with_world Server.with_incidents].
      by constructor.
    + destruct (Server.createReading _ (Server.world s)) as [r w'].
      cbn [fst Server.incidents Server.with_world Server.with_incidents].
      constructor; [|done].
      change (Server.history (set_readings incident [r])) with [r].
      unfold Server.MAX_READINGS. cbn [length]. lia.
  - cbn in Hg. apply bool_decide_eq_true in Hg.
    unfold Server.handle_updateIncident. cbn.
    destruct (Server.findIndex _ _).
    + by apply Forall_insert.
    + by constructor.
  - eapply Forall_impl; [apply tick_bounded|]. cbn. lia.
Qed.

Lemma run_bounded (es : list Server.Event) (s : Server.State) :
  Forall (fun e => Server.carries_bounded e = true) es ->
  Server.bounded_history s -> Server.bounded_history (Server.run s es).
Proof.
  intros Hes. revert s. induction Hes as [|e es He _ IH]; intros s Hs; [done|].
  cbn. apply IH. by apply step_bounded.
Qed.

(** *** Several timer firings in a row *)

Lemma run_snoc (s : Server.State) (es : list Server.Event) (e : Server.Event) :
  Server.run s (es ++ [e]) = fst (Server.step (Server.run s es) e).
Proof. unfold Server.run. by rewrite fold_left_app. Qed.

Lemma generation_chain_snoc (previous : option IncidentReading)
    (gen : list IncidentReading) (r : IncidentReading) :
  Server.generation_chain previous gen ->
  Server.generated_from (from_option Some previous (last gen)) r ->
  Server.generation_chain previous (gen ++ [r]).
Proof.
  revert previous. induction gen as [|g gen IH]; intros previous Hc Hr.
  - by split.
  - destruct Hc as [Hg Hc]. split; [done|]. apply IH; [done|].
    destruct gen as [|g' gen]; [exact Hr|].
    rewrite last_cons_cons in Hr.
    destruct (last (g' :: gen)) eqn:E; [exact Hr | by apply last_None in E].
Qed.

Lemma Forall2_compose {A} (P Q R : A -> A -> Prop) (l1 l2 l3 : list A) :
  (forall x y z, P x y -> Q y z -> R x z) ->
  Forall2 P l1 l2 -> Forall2 Q l2 l3 -> Forall2 R l1 l3.
Proof.
  intros HPQ H12. revert l3.
  induction H12 as [|x y l1 l2 Hxy _ IH]; intros l3 H23.
  - inversion H23. constructor.
  - inversion H23 as [|y' z l2' l3' Hyz H23']; subst.
    constructor; [by eapply HPQ | by apply IH].
Qed.

Lemma advanced_by_one (i i' : Incident) :
  Server.advanced i i' -> Server.advanced_by 1 i i'.
Proof.
  intros (r & Hr & ->). exists [r]. by repeat split.
Qed.

Lemma advanced_by_succ (n : nat) (i i' i'' : Incident) :
  Server.advanced_by n i i' -> Server.advanced i' i'' ->
  Server.advanced_by (S n) i i''.
Proof.
  intros (gen & Hn & Hc & ->) (r & Hr & ->).
  change (Server.history (set_readings i ?x)) with x in *.
  exists (gen ++ [r])%list. split; [rewrite length_app; cbn; lia|]. split.
  - apply generation_chain_snoc; [done|].
    rewrite last_slice_last, last_app in Hr
      by (unfold Server.MAX_READINGS; lia).
    exact Hr.
  - rewrite slice_last_app, <- app_assoc. reflexivity.
Qed.

Lemma ticks_advanced (n : nat) (s : Server.State) :
  Forall2 (Server.advanced_by (S n)) (Server.incidents s)
    (Server.incidents (Server.run s (replicate (S n) Server.Tick))).
Proof.
  induction n as [|n IH].
  - cbn. eapply Forall2_impl; [apply tick_advanced|]. apply advanced_by_one.
  - rewrite replicate_S_end, run_snoc.
    eapply Forall2_compose; [apply (advanced_by_succ (S n)) | exact IH |].
    apply tick_advanced.
Qed.

(** C2, as the code has it.  A timer firing gives every incident one new
    reading generated from its last one, appended at the end, and keeps the
    newest [MAX_READINGS] = 24 entries, so right after a firing every
    history has between 1 and 24 readings, and after any number of firings
    in a row it holds exactly the most recent readings in generation order.
    [addIncident] and [updateIncident] store the readings they carry as they
    are: from the seeded store, every history stays within 24 entries at
    every point of a run whose add and update messages carry at most 24
    readings. *)
Theorem history_bound (w : World) (es : list Server.Event) (k : nat) :
  Forall (fun e => Server.carries_bounded e = true) es ->
  Server.bounded_history (Server.run (Server.boot w) (take k es))
  /\ (forall s,
        Forall2 Server.advanced (Server.incidents s)
          (Server.incidents (fst (Server.tick s)))
        /\ Forall (fun i => 1 <= length (Server.history i) <= Server.MAX_READINGS)
             (Server.incidents (fst (Server.tick s))))
  /\ (forall s n,
        Forall2 (Server.advanced_by (S n)) (Server.incidents s)
          (Server.incidents (Server.run s (replicate (S n) Server.Tick)))).
Proof.
  intros Hes. split; [|split].
  - apply run_bounded; [by apply Forall_take | apply boot_bounded].
  - intros s. split; [apply tick_advanced | apply tick_bounded].
  - intros s n. apply ticks_advanced.
Qed.

Lemma history_bound_witness :
  let es := [ Server.Tick;
              Server.Message (Parsed (ClientMessage.addIncident Samples.new_1));
              Server.Tick;
              Server.Message (Parsed (ClientMessage.updateIncident
                                        Samples.second_1001));
              Server.Tick ] in
  Server.bounded_history
    (Server.run (Server.boot (Samples.constant_world (1 # 2))) (take 5 es)).
Proof.
  refine (proj1 (history_bound (Samples.constant_world (1 # 2)) _ 5 _)).
  repeat (constructor; [reflexivity|]). constructor.
Defined.

(** An accepted add that carries readings is stored as it came. *)
Lemma add_with_readings (s : Server.State) (incident : Incident)
    (r : IncidentReading) (rs : list IncidentReading) :
  Server.INCIDENT_ID_PATTERN_test (incidentId incident) = true ->
  readings incident = Some (r :: rs) ->
  Server.incidents (fst (Server.onMessage s
                           (Parsed (ClientMessage.addIncident incident))))
  = incident :: Server.incidents s.
Proof.
  intros E Hr. cbn [Server.onMessage]. unfold Server.handle_addIncident.
  rewrite E, Hr. reflexivity.
Qed.

(** C2 as stated fails: an accepted [addIncident] that carries 25 readings
    is stored with all 25. *)
Lemma long_history_stored :
  let s0 := Server.boot (Samples.constant_world (1 # 2)) in
  let s1 := fst (Server.onMessage s0
                   (Parsed (ClientMessage.addIncident Samples.long_history))) in
  Server.bounded_history s0
  /\ (Server.history <$> head (Server.incidents s1))
     = Some (replicate 25 Samples.reading_70)
  /\ ~ Server.bounded_history s1.
Proof.
  cbn zeta. split; [apply boot_bounded|].
  unfold Server.bounded_history.
  rewrite (add_with_readings _ Samples.long_history Samples.reading_70
             (replicate 24 Samples.reading_70)) by reflexivity.
  split; [reflexivity|].
  intros H. apply Forall_cons in H as [H _].
  change (25 <= 24) in H. lia.
Qed.

(** ** The reading generator *)

Section Rounding.
Local Open Scope Q_scope.



(** The integer [toFixed] picks is within one half of the scaled value. *)
Lemma nearest_bounds (y : Q) :
  y - (1 # 2) < inject_Z (Qfloor (y + (1 # 2)))
  /\ inject_Z (Qfloor (y + (1 # 2))) <= y + (1 # 2).
Proof.
  pose proof (Qfloor_le (y + (1 # 2))) as H1.
  pose proof (Qlt_floor (y + (1 # 2))) as H2.
  rewrite inject_Z_plus in H2. change (inject_Z 1) with 1 in H2.
  split; lra.
Qed.

Lemma toFixed_1 (x : Q) :
  toFixed 1 x =
  if Qle_bool (inject_Z (10 ^ 21)) (Qabs x) then x
  else if Qle_bool 0 x
       then inject_Z (Qfloor (Qabs x * 10 + (1 # 2))) * (1 # 10)
       else - (inject_Z (Qfloor (Qabs x * 10 + (1 # 2))) * (1 # 10)).
Proof. reflexivity. Qed.

Lemma toFixed_2 (x : Q) :
  toFixed 2 x =
  if Qle_bool (inject_Z (10 ^ 21)) (Qabs x) then x
  else if Qle_bool 0 x
       then inject_Z (Qfloor (Qabs x * 100 + (1 # 2))) * (1 # 100)
       else - (inject_Z (Qfloor (Qabs x * 100 + (1 # 2))) * (1 # 100)).
Proof. reflexivity. Qed.

Lemma Qle_bool_false (a b : Q) : Qle_bool a b = false -> b < a.
Proof.
  intros H. apply Qnot_le_lt. intros L. apply Qle_bool_iff in L. congruence.
Qed.

Lemma on_grid_int (s : Z) (p : Q) :
  on_grid s p = true -> exists k : Z, inject_Z k == p * inject_Z s.
Proof. intros H. apply Qeq_bool_iff in H. eauto. Qed.

Lemma on_grid_intro (s : Z) (p : Q) (k : Z) :
  inject_Z k == p * inject_Z s -> on_grid s p = true.
Proof.
  intros H. apply Qeq_bool_iff.
  assert (E : Qfloor (p * inject_Z s) = Qfloor (inject_Z k))
    by (apply Qfloor_comp; symmetry; exact H).
  rewrite E, Qfloor_Z. exact H.
Qed.

(** Sign analysis shared by the lemmas on [toFixed]: either the result is
    the argument itself, or it is [n / scale] with the sign of the argument,
    where [n] is within one half of [|x| * scale]. *)
Ltac rounded x :=
  destruct (Qle_bool _ (Qabs x)); [split; lra|];
  let N1 := fresh "N1" in let N2 := fresh "N2" in
  match goal with
  | |- context [Qfloor (?y + (1 # 2))] =>
      destruct (nearest_bounds y) as [N1 N2]
  end;
  let Hs := fresh "Hs" in let Ha := fresh "Ha" in
  destruct (Qle_bool 0 x) eqn:Hs;
  [ apply Qle_bool_iff in Hs; pose proof (Qabs_pos _ Hs) as Ha
  | apply Qle_bool_false in Hs;
    assert (Ha : Qabs x == - x) by (apply Qabs_neg; lra) ].

(** Rounding to one decimal moves a value by at most a twentieth. *)
Lemma toFixed_1_error (x : Q) : Qabs (toFixed 1 x - x) <= 1 # 20.
Proof.
  rewrite toFixed_1. apply Qabs_Qle_condition.
  rounded x; split; lra.
Qed.

Lemma toFixed_2_error (x : Q) : Qabs (toFixed 2 x - x) <= 1 # 200.
Proof.
  rewrite toFixed_2. apply Qabs_Qle_condition.
  rounded x; split; lra.
Qed.

(** Below [10^21] the rounded value has the requested number of decimals. *)
Lemma toFixed_1_on_grid (x : Q) :
  Qabs x < inject_Z (10 ^ 21) -> on_grid 10 (toFixed 1 x) = true.
Proof.
  intros Hx. rewrite toFixed_1.
  destruct (Qle_bool _ (Qabs x)) eqn:E;
    [apply Qle_bool_iff in E; lra|].
  set (n := Qfloor _).
  destruct (Qle_bool 0 x).
  - apply (on_grid_intro 10 _ n). change (inject_Z 10) with 10. lra.
  - apply (on_grid_intro 10 _ (- n)). rewrite inject_Z_opp.
    change (inject_Z 10) with 10. lra.
Qed.

Lemma toFixed_2_on_grid (x : Q) :
  Qabs x < inject_Z (10 ^ 21) -> on_grid 100 (toFixed 2 x) = true.
Proof.
  intros Hx. rewrite toFixed_2.
  destruct (Qle_bool _ (Qabs x)) eqn:E;
    [apply Qle_bool_iff in E; lra|].
  set (n := Qfloor _).
  destruct (Qle_bool 0 x).
  - apply (on_grid_intro 100 _ n). change (inject_Z 100) with 100. lra.
  - apply (on_grid_intro 100 _ (- n)). rewrite inject_Z_opp.
    change (inject_Z 100) with 100. lra.
Qed.

End Rounding.

(** * Further properties of the server *)

Lemma boot_interval (w : World) :
  Server.readingIntervalMs (Server.boot w) = 2000%Z
  /\ Server.readingIntervalId (Server.boot w) = Some 2000%Z.
Proof.
  unfold Server.boot.
  destruct (Server.seed_incidents w) as [seeds w1].
  destruct (Server.seedReadings seeds w1) as [seeded w2].
  split; reflexivity.
Qed.

Lemma add_interval (s : Server.State) (incident : Incident) :
  Server.readingIntervalMs (fst (Server.handle_addIncident s incident))
    = Server.readingIntervalMs s
  /\ Server.readingIntervalId (fst (Server.handle_addIncident s incident))
    = Server.readingIntervalId s.
Proof.
  unfold Server.handle_addIncident.
  destruct (negb _); [done|].
  destruct (readings incident) as [[|r rs]|];
    try destruct (Server.createReading _ (Server.world s)); done.
Qed.

Lemma tick_interval (s : Server.State) :
  Server.readingIntervalMs (fst (Server.tick s)) = Server.readingIntervalMs s
  /\ Server.readingIntervalId (fst (Server.tick s)) = Server.readingIntervalId s.
Proof.
  unfold Server.tick. by destruct (mapM Server.advance _ _).
Qed.

Lemma step_interval (s : Server.State) (e : Server.Event) :
  (250 <= Server.readingIntervalMs s)%Z ->
  Server.readingIntervalId s = Some (Server.readingIntervalMs s) ->
  (250 <= Server.readingIntervalMs (fst (Server.step s e)))%Z
  /\ Server.readingIntervalId (fst (Server.step s e))
     = Some (Server.readingIntervalMs (fst (Server.step s e))).
Proof.
  intros H1 H2.
  destruct e as [[| |[incident|incident|ms]]|];
    cbn [Server.step Server.onMessage fst]; try done.
  - destruct (add_interval s incident) as [-> ->]. done.
  - cbn. unfold Server.MIN_READING_INTERVAL_MS. split; [lia|done].
  - destruct (tick_interval s) as [-> ->]. done.
Qed.

(** X1.  The reading interval never drops below the floor of 250 ms, and
    the timer that is running was always started with the current interval:
    this holds after every run of messages and ticks from start-up.  A
    [setReadingInterval] request stores the larger of 250 and the requested
    value, restarts the timer with it, broadcasts exactly that value and
    leaves the incidents alone. *)
Theorem interval_floor_along_runs (w : World) (es : list Server.Event) :
  let s := Server.run (Server.boot w) es in
  ((250 <= Server.readingIntervalMs s)%Z
   /\ Server.readingIntervalId s = Some (Server.readingIntervalMs s))
  /\ (forall s0 ms,
        let r := Server.onMessage s0
                   (Parsed (ClientMessage.setReadingInterval ms)) in
        Server.readingIntervalMs (fst r) = Z.max 250 ms
        /\ Server.readingIntervalId (fst r) = Some (Z.max 250 ms)
        /\ snd r = [ Server.broadcast
                       (ServerMessage.readingIntervalUpdated (Z.max 250 ms)) ]
        /\ Server.incidents (fst r) = Server.incidents s0).
Proof.
  cbn zeta. split; [|by intros s0 ms].
  destruct (boot_interval w) as [B1 B2].
  assert (H : (250 <= Server.readingIntervalMs (Server.boot w))%Z
              /\ Server.readingIntervalId (Server.boot w)
                 = Some (Server.readingIntervalMs (Server.boot w)))
    by (rewrite B1, B2; split; [lia|done]).
  revert H. generalize (Server.boot w) as s.
  induction es as [|e es IH]; intros s H; [done|].
  cbn [Server.run fold_left]. apply IH. destruct H. by apply step_interval.
Qed.

Lemma step_ids_sublist (s : Server.State) (e : Server.Event) :
  Server.ids s `sublist_of` Server.ids (fst (Server.step s e)).
Proof.
  destruct e as [[| |[incident|incident|ms]]|];
    cbn [Server.step Server.onMessage fst]; try done.
  - destruct (Server.INCIDENT_ID_PATTERN_test (incidentId incident)) eqn:E.
    + rewrite (add_ids _ _ E). by apply sublist_cons.
    + unfold Server.handle_addIncident. by rewrite E.
  - rewrite update_ids. destruct (Server.findIndex _ _); [done|].
    by apply sublist_cons.
  - by rewrite tick_ids.
Qed.

(** X2.  Nothing is ever removed from the store: after any event, and so
    after any run, the identifiers that were stored are still there, in the
    same order, and the store is at least as long as before. *)
Theorem store_never_forgets (s : Server.State) (es : list Server.Event) :
  Server.ids s `sublist_of` Server.ids (Server.run s es)
  /\ length (Server.incidents s) <= length (Server.incidents (Server.run s es)).
Proof.
  assert (H : Server.ids s `sublist_of` Server.ids (Server.run s es)).
  { revert s. induction es as [|e es IH]; intros s; [done|].
    cbn [Server.run fold_left]. etrans; [apply (step_ids_sublist s e)|apply IH]. }
  split; [done|]. apply sublist_length in H.
  unfold Server.ids in H. by rewrite !length_map in H.
Qed.

(** X3.  An accepted [addIncident] that carries no readings (the field is
    absent or the list is empty) is stored at the head of the list with
    exactly one reading, generated without a previous one; the single
    [incidentAdded] broadcast carries that stored incident, and the entries
    that were in the store are untouched. *)
Theorem add_without_readings_seeds_one (s : Server.State) (incident : Incident) :
  Server.INCIDENT_ID_PATTERN_test (incidentId incident) = true ->
  Server.history incident = [] ->
  let r := Server.onMessage s (Parsed (ClientMessage.addIncident incident)) in
  exists reading,
    Server.generated_from None reading
    /\ Server.incidents (fst r)
       = set_readings incident [reading] :: Server.incidents s
    /\ snd r = [ Server.broadcast
                   (ServerMessage.incidentAdded
                      (set_readings incident [reading])) ].
Proof.
  intros E Hr. cbn zeta. cbn [Server.onMessage].
  unfold Server.handle_addIncident. rewrite E. cbn [negb].
  unfold Server.history in Hr.
  destruct (readings incident) as [[|r0 rs]|]; [|done|].
  - cbn [last].
    exists (fst (Server.createReading None (Server.world s))).
    split; [by exists (Server.world s)|].
    by destruct (Server.createReading None (Server.world s)).
  - exists (fst (Server.createReading None (Server.world s))).
    split; [by exists (Server.world s)|].
    by destruct (Server.createReading None (Server.world s)).
Qed.

Lemma add_without_readings_seeds_one_witness :
  let s := Server.boot (Samples.constant_world (1 # 2)) in
  let r := Server.onMessage s (Parsed (ClientMessage.addIncident Samples.new_1)) in
  exists reading,
    Server.generated_from None reading
    /\ Server.incidents (fst r)
       = set_readings Samples.new_1 [reading] :: Server.incidents s
    /\ snd r = [ Server.broadcast
                   (ServerMessage.incidentAdded
                      (set_readings Samples.new_1 [reading])) ].
Proof.
  apply (add_without_readings_seeds_one
           (Server.boot (Samples.constant_world (1 # 2))) Samples.new_1);
    reflexivity.
Defined.




(** X5.  A timer firing broadcasts one [incidentUpdated] per stored
    incident, in the order of the store, each carrying the incident as it is
    stored after the firing; it changes nothing of an incident but its
    readings, and neither the number of incidents nor the interval. *)
Theorem tick_broadcasts_store (s : Server.State) :
  let r := Server.tick s in
  snd r = map (fun i => Server.broadcast (ServerMessage.incidentUpdated i))
              (Server.incidents (fst r))
  /\ Forall2 (fun i i' => i' = set_readings i (Server.history i'))
       (Server.incidents s) (Server.incidents (fst r))
  /\ length (Server.incidents (fst r)) = length (Server.incidents s)
  /\ Server.readingIntervalMs (fst r) = Server.readingIntervalMs s.
Proof.
  cbn zeta.
  assert (F : Forall2 (fun i i' => i' = set_readings i (Server.history i'))
                (Server.incidents s) (Server.incidents (fst (Server.tick s)))).
  { eapply Forall2_impl; [apply tick_advanced|].
    intros i i' (r & _ & ->). reflexivity. }
  split; [|split; [done|split]].
  - unfold Server.tick. by destruct (mapM Server.advance _ _).
  - symmetry. by eapply Forall2_length.
  - apply tick_interval.
Qed.



(** X7.  The identifier pattern guards [addIncident] only.  An incident
    whose identifier fails the pattern and is not in the store is refused as
    an add, with the store unchanged, but the same incident sent as an
    [updateIncident] is put at the head of the store. *)
Theorem update_skips_id_check (s : Server.State) (incident : Incident) :
  Server.INCIDENT_ID_PATTERN_test (incidentId incident) = false ->
  incidentId incident ∉ Server.ids s ->
  Server.incidents
    (fst (Server.onMessage s (Parsed (ClientMessage.addIncident incident))))
    = Server.incidents s
  /\ Server.incidents
       (fst (Server.onMessage s (Parsed (ClientMessage.updateIncident incident))))
     = incident :: Server.incidents s.
Proof.
  intros E Hid. cbn [Server.onMessage]. split.
  - unfold Server.handle_addIncident. by rewrite E.
  - unfold Server.handle_updateIncident.
    destruct (Server.findIndex _ _) as [k|] eqn:F; [|done].
    apply findIndex_Some in F as (x & Hk & Hx). exfalso. apply Hid.
    unfold Server.ids. change (map incidentId ?l) with (incidentId <$> l).
    apply list_elem_of_fmap. exists x. split; [done|].
    by eapply list_elem_of_lookup_2.
Qed.

Lemma update_skips_id_check_witness :
  let s := Server.boot (Samples.constant_world (1 # 2)) in
  Server.incidents
    (fst (Server.onMessage s
            (Parsed (ClientMessage.addIncident Samples.short_id))))
    = Server.incidents s
  /\ Server.incidents
       (fst (Server.onMessage s
               (Parsed (ClientMessage.updateIncident Samples.short_id))))
     = Samples.short_id :: Server.incidents s.
Proof.
  apply (update_skips_id_check
           (Server.boot (Samples.constant_world (1 # 2))) Samples.short_id).
  - reflexivity.
  - rewrite boot_ids. refine (bool_decide_unpack _ _). vm_compute. exact I.
Defined.

(** * Further properties of the reading generator *)

Section Walks.
Local Open Scope Q_scope.





Lemma big_constant : inject_Z (10 ^ 21) == 1000000000000000000000.
Proof. reflexivity. Qed.


End Walks.




Lemma seed_incidents_draws (w : World) :
  random_draws (snd (Server.seed_incidents w)) = random_draws w.
Proof. reflexivity. Qed.

Lemma mapM_Forall_inv {A B} (Inv : World -> Prop) (P : B -> Prop)
    (f : A -> Eff B) :
  (forall a w, Inv w -> P (fst (f a w)) /\ Inv (snd (f a w))) ->
  forall l w, Inv w -> Forall P (fst (mapM f l w)).
Proof.
  intros Hf l. induction l as [|a l IH]; intros w Hw; [by constructor|].
  cbn [mapM]. unfold bind at 1. destruct (Hf a w Hw) as [Hp Hw1].
  destruct (f a w) as [b w1]. specialize (IH w1 Hw1).
  unfold bind at 1. destruct (mapM f l w1) as [bs w2]. by constructor.
Qed.

(** * The generator in binary64 *)

(** ** Rounding to binary64 *)

Section Binary64Rounding.
Local Open Scope Q_scope.

Lemma binade_le (x : Q) : ~ x == 0 -> 2 ^ Binary64.binade x <= Qabs x.
Proof.
  intros Hx. unfold Binary64.binade.
  set (n := Z.abs (Qnum x)). set (d := Z.pos (Qden x)).
  destruct (Qle_bool _ _) eqn:E; [by apply Qle_bool_iff in E|]. clear E.
  assert (Hn : (0 < n)%Z).
  { subst n. destruct x as [[|p|p] q]; [|cbn; lia..].
    exfalso. apply Hx. reflexivity. }
  assert (Hd : (0 < d)%Z) by (subst d; lia).
  pose proof (Z.log2_spec n Hn) as [Ln _].
  pose proof (Z.log2_spec d Hd) as [_ Ld].
  pose proof (Z.log2_nonneg n) as Nn. pose proof (Z.log2_nonneg d) as Nd.
  replace (Z.log2 n - Z.log2 d - 1)%Z with (Z.log2 n - Z.succ (Z.log2 d))%Z
    by lia.
  rewrite Qpower_minus by discriminate.
  change 2 with (inject_Z 2).
  rewrite <- !Zpower_Qpower by lia.
  set (A := (2 ^ Z.log2 n)%Z) in *. set (B := (2 ^ Z.succ (Z.log2 d))%Z) in *.
  apply Qle_shift_div_r.
  - change 0 with (inject_Z 0). rewrite <- Zlt_Qlt. lia.
  - assert (Ex : Qabs x = (n # Qden x)) by (by destruct x).
    rewrite Ex. unfold Qle, Qmult, inject_Z. cbn [Qnum Qden].
    fold d. nia.
Qed.

Lemma ulp_pos (x : Q) : 0 < Binary64.ulp x.
Proof. unfold Binary64.ulp. by apply Qpower_0_lt. Qed.

(** The unit in the last place is at most [2^-52] of the magnitude, except
    among the subnormal numbers, where it is [2^-1074]. *)
Lemma ulp_le (x : Q) :
  ~ x == 0 -> Binary64.ulp x <= (1 # 4503599627370496) * Qabs x + 2 ^ (-1074).
Proof.
  intros Hx. unfold Binary64.ulp.
  pose proof (binade_le x Hx) as Hb.
  pose proof (Qabs_nonneg x) as Ha.
  assert (Hs : 0 < 2 ^ (-1074)) by (by apply Qpower_0_lt).
  set (tiny := 2 ^ (-1074)) in *.
  destruct (Z.max_spec (Binary64.binade x) (-1022)) as [[_ ->]|[_ ->]].
  - change (2 ^ (-1022 - 52)) with tiny. lra.
  - rewrite Qpower_minus by discriminate.
    change (2 ^ 52) with 4503599627370496.
    set (b := 2 ^ Binary64.binade x) in *.
    assert (E : b / 4503599627370496 == (1 # 4503599627370496) * b)
      by (by field).
    rewrite E. lra.
Qed.

Lemma nearest_even_error (y : Q) :
  Qabs (inject_Z (Binary64.nearest_even y) - y) <= 1 # 2.
Proof.
  unfold Binary64.nearest_even.
  pose proof (Qfloor_le y) as H1. pose proof (Qlt_floor y) as H2.
  rewrite inject_Z_plus in H2. change (inject_Z 1) with 1 in H2.
  set (f := Qfloor y) in *.
  apply Qabs_Qle_condition.
  destruct (y - inject_Z f ?= 1 # 2) eqn:C.
  - apply Qeq_alt in C.
    destruct (Z.even f); [|rewrite inject_Z_plus; change (inject_Z 1) with 1];
      split; lra.
  - apply Qlt_alt in C. split; lra.
  - apply Qgt_alt in C. rewrite inject_Z_plus. change (inject_Z 1) with 1.
    split; lra.
Qed.

(** Rounding moves a value by at most half a unit in the last place. *)
Lemma round_half_ulp (x : Q) :
  Qabs (Binary64.round x - x) <= (1 # 2) * Binary64.ulp x.
Proof.
  unfold Binary64.round. destruct (Qeq_bool x 0) eqn:E.
  - apply Qeq_bool_iff in E. pose proof (ulp_pos x) as Hu.
    apply Qabs_Qle_condition. split; lra.
  - apply Qeq_bool_neq in E. rewrite Qred_correct.
    pose proof (ulp_pos x) as Hu. set (u := Binary64.ulp x) in *.
    pose proof (nearest_even_error (x / u)) as Hm.
    set (m := inject_Z (Binary64.nearest_even (x / u))) in *.
    assert (Ex : m * u - x == (m - x / u) * u) by (field; lra).
    rewrite Ex, Qabs_Qmult, (Qabs_pos u) by lra.
    apply Qmult_le_compat_r; lra.
Qed.

(** The relative error of one rounding: [2^-53], up to the subnormal
    spacing. *)
Lemma round_error (x : Q) :
  Qabs (Binary64.round x - x) <= (1 # 9007199254740992) * (Qabs x + 1).
Proof.
  pose proof (round_half_ulp x) as H.
  pose proof (Qabs_nonneg x) as Ha.
  destruct (Qeq_dec x 0) as [Z|NZ].
  - assert (E : Binary64.round x = 0)
      by (unfold Binary64.round; by rewrite (proj2 (Qeq_bool_iff x 0) Z)).
    rewrite E. assert (E' : Qabs (0 - x) == 0) by (rewrite Z; reflexivity).
    rewrite E'. lra.
  - pose proof (ulp_le x NZ) as Hu.
    assert (Hs : 2 ^ (-1074) <= 1 # 4503599627370496)
      by (apply Qle_bool_iff; by vm_compute).
    set (tiny := 2 ^ (-1074)) in *. lra.
Qed.

End Binary64Rounding.

(** [Binary64.round] against the IEEE 754 operations of the Standard
    Library at 53 bits: the decimals of the examples below, a sum, a
    difference and a product. *)
Example round_agrees_with_SpecFloat :
  Binary64.same (Binary64.decimal 1 10) (Binary64.Number (1 # 10)) = true
  /\ Binary64.same (Binary64.decimal 7004 100) (Binary64.Number (7004 # 100))
     = true
  /\ Binary64.same (Binary64.decimal 644 10) (Binary64.Number (644 # 10)) = true
  /\ Binary64.same (Binary64.decimal 624 10) (Binary64.Number (624 # 10)) = true
  /\ Binary64.same (Binary64.decimal 1610 100) (Binary64.Number (1610 # 100))
     = true
  /\ Binary64.same
       (SFadd 53 1024 (Binary64.decimal 1 10) (Binary64.decimal 2 10))
       (Binary64.add (Binary64.Number (1 # 10)) (Binary64.Number (2 # 10)))
     = true
  /\ Binary64.same
       (SFsub 53 1024 (Binary64.decimal 644 10) (Binary64.whole 2))
       (Binary64.sub (Binary64.Number (644 # 10)) 2)
     = true
  /\ Binary64.same
       (SFmul 53 1024 (Binary64.decimal 3 10) (Binary64.whole 12))
       (Binary64.mul (Binary64.Number (3 # 10)) 12)
     = true.
Proof. repeat split; by vm_compute. Qed.

Section Binary64Steps.
Local Open Scope Q_scope.

Lemma int_lt_succ (n m : Z) :
  inject_Z n < inject_Z m + 1 -> inject_Z n <= inject_Z m.
Proof.
  intros H. rewrite <- Zle_Qle.
  destruct (Z_le_gt_dec n m) as [|G]; [assumption|]. exfalso.
  assert (H1 : inject_Z (m + 1) <= inject_Z n) by (rewrite <- Zle_Qle; lia).
  rewrite inject_Z_plus in H1. change (inject_Z 1) with 1 in H1. lra.
Qed.

Lemma int_gt_pred (n m : Z) :
  inject_Z m - 1 < inject_Z n -> inject_Z m <= inject_Z n.
Proof.
  intros H. rewrite <- Zle_Qle.
  destruct (Z_le_gt_dec m n) as [|G]; [assumption|]. exfalso.
  assert (H1 : inject_Z (n + 1) <= inject_Z m) by (rewrite <- Zle_Qle; lia).
  rewrite inject_Z_plus in H1. change (inject_Z 1) with 1 in H1. lra.
Qed.

Ltac signed x :=
  let B := fresh "B" in
  destruct (Qle_bool _ (Qabs x)) eqn:B; [apply Qle_bool_iff in B; lra|];
  let N1 := fresh "N1" in let N2 := fresh "N2" in
  match goal with
  | |- context [Qfloor (?y + (1 # 2))] =>
      destruct (nearest_bounds y) as [N1 N2]
  end;
  let Hs := fresh "Hs" in let Ha := fresh "Ha" in
  destruct (Qle_bool 0 x) eqn:Hs;
  [ apply Qle_bool_iff in Hs; pose proof (Qabs_pos _ Hs) as Ha
  | apply Qle_bool_false in Hs;
    assert (Ha : Qabs x == - x) by (apply Qabs_neg; lra) ].

(** A value less than [c + 0.05] away from a number with one decimal is
    printed at most [c] away from it, for a whole number [c]. *)
Lemma toFixed_1_near (c : Z) (p x : Q) :
  on_grid 10 p = true -> Qabs x < inject_Z (10 ^ 21) ->
  Qabs (x - p) < inject_Z c + (1 # 20) ->
  Qabs (toFixed 1 x - p) <= inject_Z c.
Proof.
  intros Hg Hbig Hx. apply on_grid_int in Hg as [k Hk].
  change (inject_Z 10) with 10 in Hk.
  apply Qabs_Qlt_condition in Hx.
  rewrite toFixed_1. apply Qabs_Qle_condition.
  signed x; set (n := Qfloor _) in *.
  - assert (U : inject_Z n <= inject_Z (k + 10 * c)).
    { apply int_lt_succ. rewrite inject_Z_plus, inject_Z_mult.
      change (inject_Z 10) with 10. lra. }
    assert (L : inject_Z (k + - (10 * c)) <= inject_Z n).
    { apply int_gt_pred. rewrite inject_Z_plus, inject_Z_opp, inject_Z_mult.
      change (inject_Z 10) with 10. lra. }
    rewrite inject_Z_plus, inject_Z_mult in U.
    rewrite inject_Z_plus, inject_Z_opp, inject_Z_mult in L.
    change (inject_Z 10) with 10 in U, L.
    split; lra.
  - assert (U : inject_Z n <= inject_Z (- k + 10 * c)).
    { apply int_lt_succ. rewrite inject_Z_plus, inject_Z_opp, inject_Z_mult.
      change (inject_Z 10) with 10. lra. }
    assert (L : inject_Z (- k + - (10 * c)) <= inject_Z n).
    { apply int_gt_pred. rewrite inject_Z_plus, !inject_Z_opp, inject_Z_mult.
      change (inject_Z 10) with 10. lra. }
    rewrite inject_Z_plus, inject_Z_opp, inject_Z_mult in U.
    rewrite inject_Z_plus, !inject_Z_opp, inject_Z_mult in L.
    change (inject_Z 10) with 10 in U, L.
    split; lra.
Qed.

Lemma toFixed_2_near (c : Z) (p x : Q) :
  on_grid 100 p = true -> Qabs x < inject_Z (10 ^ 21) ->
  Qabs (x - p) < inject_Z c + (1 # 200) ->
  Qabs (toFixed 2 x - p) <= inject_Z c.
Proof.
  intros Hg Hbig Hx. apply on_grid_int in Hg as [k Hk].
  change (inject_Z 100) with 100 in Hk.
  apply Qabs_Qlt_condition in Hx.
  rewrite toFixed_2. apply Qabs_Qle_condition.
  signed x; set (n := Qfloor _) in *.
  - assert (U : inject_Z n <= inject_Z (k + 100 * c)).
    { apply int_lt_succ. rewrite inject_Z_plus, inject_Z_mult.
      change (inject_Z 100) with 100. lra. }
    assert (L : inject_Z (k + - (100 * c)) <= inject_Z n).
    { apply int_gt_pred. rewrite inject_Z_plus, inject_Z_opp, inject_Z_mult.
      change (inject_Z 100) with 100. lra. }
    rewrite inject_Z_plus, inject_Z_mult in U.
    rewrite inject_Z_plus, inject_Z_opp, inject_Z_mult in L.
    change (inject_Z 100) with 100 in U, L.
    split; lra.
  - assert (U : inject_Z n <= inject_Z (- k + 100 * c)).
    { apply int_lt_succ. rewrite inject_Z_plus, inject_Z_opp, inject_Z_mult.
      change (inject_Z 100) with 100. lra. }
    assert (L : inject_Z (- k + - (100 * c)) <= inject_Z n).
    { apply int_gt_pred. rewrite inject_Z_plus, !inject_Z_opp, inject_Z_mult.
      change (inject_Z 100) with 100. lra. }
    rewrite inject_Z_plus, inject_Z_opp, inject_Z_mult in U.
    rewrite inject_Z_plus, !inject_Z_opp, inject_Z_mult in L.
    change (inject_Z 100) with 100 in U, L.
    split; lra.
Qed.

(** One rounding of a value of magnitude at most [M]. *)
Lemma round_within (M y : Q) :
  Qabs y <= M ->
  - ((1 # 9007199254740992) * (M + 1)) <= Binary64.round y - y
  /\ Binary64.round y - y <= (1 # 9007199254740992) * (M + 1).
Proof.
  intros Hy. pose proof (round_error y) as E.
  apply Qabs_Qle_condition in E. split; lra.
Qed.

Ltac rounding y M :=
  let E := fresh "E" in
  assert (E : Qabs y <= M) by (apply Qabs_Qle_condition; split; lra);
  apply round_within in E.

(** The drift that is added to the temperature: [Math.random() * 4 - 2]. *)
Lemma temperature_drift (r : Q) :
  0 <= r -> r < 1 ->
  Qabs (Binary64.sub (Binary64.mul r 4) 2) <= 2 + (1 # 1000000000000).
Proof.
  intros R0 R1. unfold Binary64.sub, Binary64.mul.
  rounding (r * 4) 4. set (m := Binary64.round (r * 4)) in *.
  rounding (m - 2) 3. set (s := Binary64.round (m - 2)) in *.
  apply Qabs_Qle_condition. split; lra.
Qed.

(** The drift that is added to the pressure: [Math.random() * 2 - 1]. *)
Lemma pressure_drift (r : Q) :
  0 <= r -> r < 1 ->
  Qabs (Binary64.sub (Binary64.mul r 2) 1) <= 1 + (1 # 1000000000000).
Proof.
  intros R0 R1. unfold Binary64.sub, Binary64.mul.
  rounding (r * 2) 2. set (m := Binary64.round (r * 2)) in *.
  rounding (m - 1) 2. set (s := Binary64.round (m - 1)) in *.
  apply Qabs_Qle_condition. split; lra.
Qed.

(** One step of a component: a base of magnitude at most [10^9], a drift
    of at most [c] up to its rounding, the sum printed with [f] decimals
    and read back. *)
Lemma step_close (f : nat) (h c base s : Q) :
  (forall x, Qabs (toFixed f x - x) <= h) ->
  0 <= h -> h <= 1 -> 0 <= c -> c <= 2 ->
  Qabs base <= 1000000000 ->
  Qabs s <= c + (1 # 1000000000000) ->
  let x := Binary64.add base s in
  Qabs (x - base) <= c + (1 # 4000000)
  /\ Qabs (Binary64.Number (toFixed f x) - base) <= c + h + (1 # 1000000)
  /\ Qabs (Binary64.Number (toFixed f x) - toFixed f x) <= (1 # 4000000)
  /\ Qabs x <= 1000000003.
Proof.
  intros Hf H0 H1 C0 C1 Hb Hs x. subst x. unfold Binary64.add, Binary64.Number.
  apply Qabs_Qle_condition in Hb, Hs.
  rounding (base + s) 1000000003. set (x := Binary64.round (base + s)) in *.
  pose proof (Hf x) as Ht. apply Qabs_Qle_condition in Ht.
  set (t := toFixed f x) in *.
  rounding t 1000000004. set (y := Binary64.round t) in *.
  repeat split; apply Qabs_Qle_condition; split; lra.
Qed.



(** The decimal behind a stored value is as small as the value. *)
Lemma printed_as_close (scale : Z) (x d : Q) :
  printed_as scale x d -> Qabs x <= 1000000000 ->
  Qabs d <= 1000000001 /\ Qabs (x - d) <= 1 # 4000000.
Proof.
  intros [_ E] Hx. unfold Binary64.Number in E.
  pose proof (round_error d) as R. rewrite <- E in R.
  apply Qabs_Qle_condition in Hx, R.
  destruct (Qlt_le_dec d 0) as [N|N].
  - assert (A : Qabs d == - d) by (apply Qabs_neg; lra).
    split; [lra | apply Qabs_Qle_condition; split; lra].
  - pose proof (Qabs_pos d N) as A.
    split; [lra | apply Qabs_Qle_condition; split; lra].
Qed.

Lemma step_printed_1 (base s P : Q) :
  printed_as 10 base P -> Qabs base <= 1000000000 ->
  Qabs s <= 2 + (1 # 1000000000000) ->
  let t := toFixed 1 (Binary64.add base s) in
  printed_as 10 (Binary64.Number t) t
  /\ Qabs (t - P) <= 2
  /\ Qabs (Binary64.Number t - base) <= 2 + (1 # 1000000).
Proof.
  intros HP Hb Hs t.
  destruct (printed_as_close _ _ _ HP Hb) as [HP1 HP2].
  destruct (step_close 1 (1 # 20) 2 base s toFixed_1_error) as (X1 & _ & X3 & X4);
    [lra.. | done | done |].
  fold t in X3. set (x := Binary64.add base s) in *.
  pose proof big_constant as Big.
  assert (Hbig : Qabs x < inject_Z (10 ^ 21)) by lra.
  assert (Hnear : Qabs (t - P) <= 2).
  { apply (toFixed_1_near 2); [apply HP | done |]. change (inject_Z 2) with 2.
    apply Qabs_Qle_condition in X1, HP2. apply Qabs_Qlt_condition.
    split; lra. }
  split; [|split; [done|]].
  - split; [by apply toFixed_1_on_grid | reflexivity].
  - apply Qabs_Qle_condition in X3, HP2, Hnear.
    apply Qabs_Qle_condition. split; lra.
Qed.

Lemma step_printed_2 (base s P : Q) :
  printed_as 100 base P -> Qabs base <= 1000000000 ->
  Qabs s <= 1 + (1 # 1000000000000) ->
  let t := toFixed 2 (Binary64.add base s) in
  printed_as 100 (Binary64.Number t) t
  /\ Qabs (t - P) <= 1
  /\ Qabs (Binary64.Number t - base) <= 1 + (1 # 1000000).
Proof.
  intros HP Hb Hs t.
  destruct (printed_as_close _ _ _ HP Hb) as [HP1 HP2].
  destruct (step_close 2 (1 # 200) 1 base s toFixed_2_error) as (X1 & _ & X3 & X4);
    [lra.. | done | done |].
  fold t in X3. set (x := Binary64.add base s) in *.
  pose proof big_constant as Big.
  assert (Hbig : Qabs x < inject_Z (10 ^ 21)) by lra.
  assert (Hnear : Qabs (t - P) <= 1).
  { apply (toFixed_2_near 1); [apply HP | done |]. change (inject_Z 1) with 1.
    apply Qabs_Qle_condition in X1, HP2. apply Qabs_Qlt_condition.
    split; lra. }
  split; [|split; [done|]].
  - split; [by apply toFixed_2_on_grid | reflexivity].
  - apply Qabs_Qle_condition in X3, HP2, Hnear.
    apply Qabs_Qle_condition. split; lra.
Qed.


(** With a previous reading, the generator takes two draws, the first for
    the temperature and the second for the pressure. *)
Lemma createReading64_some (previous : IncidentReading) (w : World) :
  fst (Binary64.createReading (Some previous) w)
  = {| timestamp := toISOString w (clock_ms w (clock_next w));
       temperature :=
         Binary64.Number
           (toFixed 1
              (Binary64.add (temperature previous)
                 (Binary64.sub
                    (Binary64.mul (random_draws w (random_next w)) 4) 2)));
       pressure :=
         Binary64.Number
           (toFixed 2
              (Binary64.add (pressure previous)
                 (Binary64.sub
                    (Binary64.mul (random_draws w (S (random_next w))) 2) 1))) |}.
Proof. reflexivity. Qed.


(** Without a previous reading, the generator takes four draws: the two
    bases first, then the two drifts. *)
Lemma createReading64_none (w : World) :
  fst (Binary64.createReading None w)
  = {| timestamp := toISOString w (clock_ms w (clock_next w));
       temperature :=
         Binary64.Number
           (toFixed 1
              (Binary64.add
                 (Binary64.add 68
                    (Binary64.mul (random_draws w (random_next w)) 12))
                 (Binary64.sub
                    (Binary64.mul (random_draws w (S (S (random_next w)))) 4)
                    2)));
       pressure :=
         Binary64.Number
           (toFixed 2
              (Binary64.add
                 (Binary64.add 18
                    (Binary64.mul (random_draws w (S (random_next w))) 6))
                 (Binary64.sub
                    (Binary64.mul
                       (random_draws w (S (S (S (random_next w))))) 2)
                    1))) |}.
Proof. reflexivity. Qed.

Lemma createReading64_draws (previous : option IncidentReading) (w : World) :
  random_draws (snd (Binary64.createReading previous w)) = random_draws w.
Proof. by destruct previous. Qed.

(** The seeding bases: [68 + Math.random() * 12] and
    [18 + Math.random() * 6]. *)
Lemma temperature_base (r : Q) :
  0 <= r -> r < 1 ->
  Qabs (Binary64.add 68 (Binary64.mul r 12) - 74) <= 6 + (1 # 1000000000000).
Proof.
  intros R0 R1. unfold Binary64.add, Binary64.mul.
  rounding (r * 12) 12. set (m := Binary64.round (r * 12)) in *.
  rounding (68 + m) 81. set (b := Binary64.round (68 + m)) in *.
  apply Qabs_Qle_condition. split; lra.
Qed.

Lemma pressure_base (r : Q) :
  0 <= r -> r < 1 ->
  Qabs (Binary64.add 18 (Binary64.mul r 6) - 21) <= 3 + (1 # 1000000000000).
Proof.
  intros R0 R1. unfold Binary64.add, Binary64.mul.
  rounding (r * 6) 6. set (m := Binary64.round (r * 6)) in *.
  rounding (18 + m) 25. set (b := Binary64.round (18 + m)) in *.
  apply Qabs_Qle_condition. split; lra.
Qed.

Lemma first_reading64 (w : World) :
  unit_draws w ->
  let r := fst (Binary64.createReading None w) in
  exists T P : Q,
    printed_as 10 (temperature r) T /\ printed_as 100 (pressure r) P
    /\ (66 <= T /\ T <= 82) /\ (17 <= P /\ P <= 25).
Proof.
  intros Hw. cbn zeta. rewrite createReading64_none. cbn [temperature pressure].
  destruct (Hw (random_next w)) as [A0 A1].
  destruct (Hw (S (random_next w))) as [B0 B1].
  destruct (Hw (S (S (random_next w)))) as [C0 C1].
  destruct (Hw (S (S (S (random_next w))))) as [D0 D1].
  pose proof (temperature_base _ A0 A1) as Bt.
  pose proof (pressure_base _ B0 B1) as Bp.
  pose proof (temperature_drift _ C0 C1) as Dt.
  pose proof (pressure_drift _ D0 D1) as Dp.
  set (bt := Binary64.add 68 _) in *. set (bp := Binary64.add 18 _) in *.
  set (s := Binary64.sub _ 2) in *. set (q := Binary64.sub _ 1) in *.
  apply Qabs_Qle_condition in Bt, Bp.
  destruct (step_close 1 (1 # 20) 2 bt s toFixed_1_error) as (T1 & _ & _ & T4);
    [lra.. | apply Qabs_Qle_condition; split; lra | exact Dt |].
  destruct (step_close 2 (1 # 200) 1 bp q toFixed_2_error) as (P1 & _ & _ & P4);
    [lra.. | apply Qabs_Qle_condition; split; lra | exact Dp |].
  set (xt := Binary64.add bt s) in *. set (xp := Binary64.add bp q) in *.
  pose proof big_constant as Big.
  assert (Gt : on_grid 10 74 = true) by reflexivity.
  assert (Gp : on_grid 100 21 = true) by reflexivity.
  assert (Nt : Qabs (toFixed 1 xt - 74) <= inject_Z 8).
  { apply toFixed_1_near; [exact Gt | lra |]. change (inject_Z 8) with 8.
    apply Qabs_Qle_condition in T1. apply Qabs_Qlt_condition. split; lra. }
  assert (Np : Qabs (toFixed 2 xp - 21) <= inject_Z 4).
  { apply toFixed_2_near; [exact Gp | lra |]. change (inject_Z 4) with 4.
    apply Qabs_Qle_condition in P1. apply Qabs_Qlt_condition. split; lra. }
  change (inject_Z 8) with 8 in Nt. change (inject_Z 4) with 4 in Np.
  apply Qabs_Qle_condition in Nt, Np.
  exists (toFixed 1 xt), (toFixed 2 xp).
  split; [|split; [|split]].
  - split; [|reflexivity]. apply toFixed_1_on_grid. lra.
  - split; [|reflexivity]. apply toFixed_2_on_grid. lra.
  - split; lra.
  - split; lra.
Qed.

(** A stored value is as small as the decimal behind it. *)
Lemma printed_as_small (scale : Z) (x d : Q) :
  printed_as scale x d -> Qabs d <= 100000000 -> Qabs x <= 1000000000.
Proof.
  intros [_ E] Hd. unfold Binary64.Number in E.
  assert (R : Qabs d <= 100000000) by exact Hd.
  apply round_within in R. rewrite <- E in R.
  apply Qabs_Qle_condition in Hd. apply Qabs_Qle_condition. split; lra.
Qed.

Lemma printed_step64 (B : Z) (prev : IncidentReading) (w : World) :
  unit_draws w -> printed_within B prev -> (B + 2 <= 100000000)%Z ->
  decimal_drift prev (fst (Binary64.createReading (Some prev) w))
  /\ printed_within (B + 2) (fst (Binary64.createReading (Some prev) w)).
Proof.
  intros Hw (T & P & HT & HP & MT & MP) HB.
  rewrite createReading64_some. unfold decimal_drift, printed_within.
  cbn [temperature pressure].
  destruct (Hw (random_next w)) as [U0 U1].
  destruct (Hw (S (random_next w))) as [V0 V1].
  pose proof (temperature_drift _ U0 U1) as Ds.
  pose proof (pressure_drift _ V0 V1) as Dp.
  set (s := Binary64.sub _ 2) in *. set (q := Binary64.sub _ 1) in *.
  rewrite Zle_Qle, inject_Z_plus in HB.
  change (inject_Z 2) with 2 in HB.
  change (inject_Z 100000000) with 100000000 in HB.
  assert (St : Qabs (temperature prev) <= 1000000000).
  { apply (printed_as_small 10 _ T HT). lra. }
  assert (Sp : Qabs (pressure prev) <= 1000000000).
  { apply (printed_as_small 100 _ P HP). lra. }
  destruct (step_printed_1 _ s T HT St Ds) as (A1 & A2 & _).
  destruct (step_printed_2 _ q P HP Sp Dp) as (B1 & B2 & _).
  set (T' := toFixed 1 _) in *. set (P' := toFixed 2 _) in *.
  split.
  - exists T, T', P, P'.
    split; [exact HT|]. split; [exact A1|]. split; [exact HP|].
    split; [exact B1|]. split; [exact A2 | exact B2].
  - exists T', P'. split; [exact A1|]. split; [exact B1|].
    rewrite inject_Z_plus. change (inject_Z 2) with 2.
    apply Qabs_Qle_condition in A2, B2, MT, MP.
    split; apply Qabs_Qle_condition; split; lra.
Qed.

Lemma first_printed64 (B : Z) (w : World) :
  unit_draws w -> (82 <= B)%Z ->
  printed_within B (fst (Binary64.createReading None w)).
Proof.
  intros Hw HB.
  destruct (first_reading64 w Hw) as (T & P & HT & HP & (T0 & T1) & (P0 & P1)).
  rewrite Zle_Qle in HB. change (inject_Z 82) with 82 in HB.
  exists T, P. split; [exact HT|]. split; [exact HP|].
  split; apply Qabs_Qle_condition; split; lra.
Qed.

Lemma decimal_walk_snoc (acc : list IncidentReading) (r : IncidentReading) :
  decimal_walk acc ->
  (forall p, last acc = Some p -> decimal_drift p r) ->
  decimal_walk (acc ++ [r]).
Proof.
  induction acc as [|a [|b rest] IH]; intros Hacc Hlast.
  - exact I.
  - split; [by apply Hlast | exact I].
  - destruct Hacc as [Hab Hrest]. split; [exact Hab|].
    apply IH; [exact Hrest|]. intros p Hp. apply Hlast.
    by rewrite last_cons_cons.
Qed.

Lemma push_readings64_walk (n : nat) :
  forall (acc : list IncidentReading) (B : Z) (w : World),
    unit_draws w -> decimal_walk acc ->
    (forall p, last acc = Some p -> printed_within B p) ->
    (82 <= B)%Z -> (B + 2 * Z.of_nat n <= 100000000)%Z ->
    decimal_walk (fst (Binary64.push_readings n acc w)).
Proof.
  induction n as [|n IH]; intros acc B w Hw Hacc Hlast HB Hn; [exact Hacc|].
  cbn [Binary64.push_readings]. unfold bind.
  assert (Hw1 : unit_draws (snd (Binary64.createReading (last acc) w)))
    by (intros k; rewrite createReading64_draws; apply Hw).
  destruct (Binary64.createReading (last acc) w) as [r w1] eqn:E.
  assert (Er : r = fst (Binary64.createReading (last acc) w)) by (by rewrite E).
  cbn [snd] in Hw1.
  assert (Hr : (forall p, last acc = Some p -> decimal_drift p r)
               /\ printed_within (B + 2) r).
  { destruct (last acc) as [p|] eqn:L.
    - destruct (printed_step64 B p w Hw (Hlast p eq_refl)) as [D P]; [lia|].
      rewrite <- Er in D, P. split; [|exact P]. by intros p' [= <-].
    - split; [by intros p' [=]|]. rewrite Er. apply first_printed64; [exact Hw | lia]. }
  destruct Hr as [Hd Hp].
  assert (Hwalk : decimal_walk (acc ++ [r])) by (by apply decimal_walk_snoc).
  assert (Hlast' : forall p, last (acc ++ [r]) = Some p -> printed_within (B + 2) p)
    by (intros p; rewrite last_snoc; by intros [= <-]).
  apply (IH (acc ++ [r])%list (B + 2)%Z w1 Hw1 Hwalk Hlast'); lia.
Qed.

Lemma push_readings64_length (n : nat) (acc : list IncidentReading) (w : World) :
  length (fst (Binary64.push_readings n acc w)) = (n + length acc)%nat.
Proof.
  revert acc w. induction n as [|n IH]; intros acc w; [reflexivity|].
  cbn [Binary64.push_readings]. unfold bind.
  destruct (Binary64.createReading _ w) as [r w1].
  rewrite IH, length_app. cbn. lia.
Qed.

Lemma push_readings64_S (n : nat) (acc : list IncidentReading) (w : World) :
  Binary64.push_readings (S n) acc w
  = let (r, w1) := Binary64.createReading (last acc) w in
    Binary64.push_readings n (acc ++ [r]) w1.
Proof. reflexivity. Qed.

Lemma push_readings64_head (n : nat) :
  forall (acc : list IncidentReading) (a : IncidentReading) (w : World),
    head acc = Some a -> head (fst (Binary64.push_readings n acc w)) = Some a.
Proof.
  induction n as [|n IH]; intros acc a w Ha; [exact Ha|].
  cbn [Binary64.push_readings]. unfold bind.
  destruct (Binary64.createReading (last acc) w) as [r w1].
  apply IH. by destruct acc.
Qed.

Lemma push_readings64_draws (n : nat) :
  forall (acc : list IncidentReading) (w : World),
    random_draws (snd (Binary64.push_readings n acc w)) = random_draws w.
Proof.
  induction n as [|n IH]; intros acc w; [reflexivity|].
  cbn [Binary64.push_readings]. unfold bind.
  pose proof (createReading64_draws (last acc) w) as D.
  destruct (Binary64.createReading (last acc) w) as [r w1].
  cbn [snd] in D. by rewrite IH.
Qed.

Lemma push_readings64_seeded (w : World) :
  unit_draws w ->
  seeded_walk (fst (Binary64.push_readings Server.MAX_READINGS [] w)).
Proof.
  intros Hw. split; [|split].
  - by rewrite push_readings64_length.
  - apply (push_readings64_walk _ [] 82 w); try done;
      unfold Server.MAX_READINGS; lia.
  - destruct (first_reading64 w Hw) as (T & P & HT & HP & RT & RP).
    exists (fst (Binary64.createReading None w)), T, P.
    split; [|split; [exact HT|]; split; [exact HP|]; split; [exact RT | exact RP]].
    change Server.MAX_READINGS with (S 23).
    rewrite (push_readings64_S 23 [] w). cbn [last].
    destruct (Binary64.createReading None w) as [r w1].
    apply push_readings64_head. reflexivity.
Qed.

Lemma seedReadings64_seeded (l : list Incident) (w : World) :
  unit_draws w ->
  Forall (fun i => seeded_walk (Server.history i))
         (fst (Binary64.seedReadings l w)).
Proof.
  unfold Binary64.seedReadings. apply mapM_Forall_inv. clear l w.
  intros a w Hw. unfold bind.
  pose proof (push_readings64_seeded w Hw) as Hs.
  pose proof (push_readings64_draws Server.MAX_READINGS [] w) as Hd.
  destruct (Binary64.push_readings Server.MAX_READINGS [] w) as [rs w1].
  cbn [fst snd ret] in *. split; [exact Hs|].
  intros k. rewrite Hd. apply Hw.
Qed.

End Binary64Steps.

(** C6, as the code has it.  For a previous reading of magnitude at most
    10^9 and draws in [0, 1), in the engine's binary64 arithmetic: the new
    temperature is the double nearest to a number with one decimal and the
    new pressure the double nearest to a number with two decimals, and they
    lie within 2.05 and 1.005 of the previous values, up to 10^-6 of
    rounding error.  When the previous temperature is itself the double
    nearest to a number with one decimal, as every generated temperature
    is, the two decimals differ by at most 2 and the stored doubles by at
    most 2 + 10^-6; likewise the pressure, with two decimals and 1. *)
Theorem bounded_drift (previous : IncidentReading) (w : World) :
  unit_draws w ->
  (Qabs (temperature previous) <= 1000000000)%Q ->
  (Qabs (pressure previous) <= 1000000000)%Q ->
  let next := fst (Binary64.createReading (Some previous) w) in
  exists T' P' : Q,
    printed_as 10 (temperature next) T'
    /\ printed_as 100 (pressure next) P'
    /\ (Qabs (temperature next - temperature previous)
          <= 2 + (1 # 20) + (1 # 1000000)
        /\ Qabs (pressure next - pressure previous)
          <= 1 + (1 # 200) + (1 # 1000000))%Q
    /\ (forall T, printed_as 10 (temperature previous) T ->
          (Qabs (T' - T) <= 2
           /\ Qabs (temperature next - temperature previous)
                <= 2 + (1 # 1000000))%Q)
    /\ (forall P, printed_as 100 (pressure previous) P ->
          (Qabs (P' - P) <= 1
           /\ Qabs (pressure next - pressure previous)
                <= 1 + (1 # 1000000))%Q).
Proof.
  intros Hw Ht Hp. cbn zeta. rewrite createReading64_some.
  cbn [temperature pressure].
  destruct (Hw (random_next w)) as [U0 U1].
  destruct (Hw (S (random_next w))) as [V0 V1].
  pose proof (temperature_drift _ U0 U1) as Ds.
  pose proof (pressure_drift _ V0 V1) as Dp.
  set (s := Binary64.sub (Binary64.mul (random_draws w (random_next w)) 4) 2)
    in *.
  set (q := Binary64.sub (Binary64.mul (random_draws w (S (random_next w))) 2) 1)
    in *.
  destruct (step_close 1 (1 # 20) 2 (temperature previous) s toFixed_1_error)
    as (_ & T2 & _ & T4); [lra.. | done | done |].
  destruct (step_close 2 (1 # 200) 1 (pressure previous) q toFixed_2_error)
    as (_ & P2 & _ & P4); [lra.. | done | done |].
  pose proof big_constant as Big.
  eexists _, _. split; [|split; [|split; [|split]]].
  - split; [|reflexivity]. apply toFixed_1_on_grid. lra.
  - split; [|reflexivity]. apply toFixed_2_on_grid. lra.
  - split; [exact T2 | exact P2].
  - intros T HT.
    destruct (step_printed_1 _ s T HT Ht Ds) as (_ & A & B).
    split; [exact A | exact B].
  - intros P HP.
    destruct (step_printed_2 _ q P HP Hp Dp) as (_ & A & B).
    split; [exact A | exact B].
Qed.

Lemma bounded_drift_witness :
  let previous := Samples.reading_70_3 in
  let next := fst (Binary64.createReading (Some previous)
                     (Samples.constant_world (1 # 2))) in
  exists T' P' : Q,
    printed_as 10 (temperature next) T'
    /\ printed_as 100 (pressure next) P'
    /\ (Qabs (T' - (703 # 10)) <= 2
        /\ Qabs (temperature next - temperature previous)
             <= 2 + (1 # 1000000))%Q
    /\ (Qabs (P' - (2012 # 100)) <= 1
        /\ Qabs (pressure next - pressure previous)
             <= 1 + (1 # 1000000))%Q.
Proof.
  cbn zeta.
  destruct (bounded_drift Samples.reading_70_3 (Samples.constant_world (1 # 2)))
    as (T' & P' & HT & HP & _ & Ht & Hp).
  - intros k. split; [discriminate | reflexivity].
  - apply Qle_bool_iff. vm_compute. reflexivity.
  - apply Qle_bool_iff. vm_compute. reflexivity.
  - exists T', P'. split; [exact HT|]. split; [exact HP|]. split.
    + apply Ht. split; vm_compute; reflexivity.
    + apply Hp. split; vm_compute; reflexivity.
Defined.

(** C6 as stated fails.  From a previous temperature of 70.04, which a
    client may supply, and a draw of 0 the generator returns 68, which is
    2.04 away.  And from the generated values 64.4 and 16.1 a draw of 0
    gives 62.4 and 15.1: the decimals are exactly 2 and 1 apart, the
    doubles that are stored are 2 + 2^-47 and 1 + 2^-49 apart. *)
Lemma drift_exceeds_two :
  let w := Samples.constant_world 0 in
  let next := fst (Binary64.createReading (Some Samples.reading_70_04) w) in
  let next' := fst (Binary64.createReading (Some Samples.reading_64_4) w) in
  unit_draws w
  /\ (temperature next == 68)%Q
  /\ ~ (Qabs (temperature next - temperature Samples.reading_70_04) <= 2)%Q
  /\ printed_as 10 (temperature Samples.reading_64_4) (644 # 10)
  /\ printed_as 10 (temperature next') (624 # 10)
  /\ printed_as 100 (pressure Samples.reading_64_4) (1610 # 100)
  /\ printed_as 100 (pressure next') (1510 # 100)
  /\ (temperature next' - temperature Samples.reading_64_4
      == - (2 + (1 # 140737488355328)))%Q
  /\ (pressure next' - pressure Samples.reading_64_4
      == - (1 + (1 # 562949953421312)))%Q
  /\ ~ (Qabs (temperature next' - temperature Samples.reading_64_4) <= 2)%Q
  /\ ~ (Qabs (pressure next' - pressure Samples.reading_64_4) <= 1)%Q.
Proof.
  cbn zeta.
  assert (No : forall a b : Q, Qle_bool a b = false -> ~ (a <= b)%Q).
  { intros a b H L. apply Qle_bool_iff in L. congruence. }
  split; [intros k; split; [discriminate | reflexivity]|].
  split; [by vm_compute|].
  split; [apply No; by vm_compute|].
  split; [split; by vm_compute|]. split; [split; by vm_compute|].
  split; [split; by vm_compute|]. split; [split; by vm_compute|].
  split; [by vm_compute|]. split; [by vm_compute|].
  split; apply No; by vm_compute.
Qed.

(** The digit that is printed follows the doubles, not the decimals they
    stand for: from 70.3 and a draw of 0.5125 the exact sum is 70.35, which
    would be printed as 70.4, but the doubles add up to just below it and
    70.3 is printed. *)
Example printed_digit_follows_the_doubles :
  let w := Samples.constant_world (Binary64.Number (5125 # 10000)) in
  (temperature (fst (Binary64.createReading (Some Samples.reading_70_3) w))
   == Binary64.Number (703 # 10))%Q
  /\ (toFixed 1 ((703 # 10) + ((5125 # 10000) * 4 - 2)) == 704 # 10)%Q.
Proof. split; by vm_compute. Qed.

(** With a previous value as large as 2^54 + 4 the doubles are 4 apart, and
    a drift of -2 is lost or doubled in the rounding of the sum: a bound on
    the magnitude cannot be dispensed with. *)
Example drift_at_large_magnitude :
  (Binary64.add (18014398509481988) (-2) == 18014398509481984)%Q.
Proof. by vm_compute. Qed.

(** X9.  At start-up, in the engine's binary64 arithmetic, every seeded
    incident gets a full history of 24 readings; each temperature is the
    double nearest to a number with one decimal and each pressure the
    double nearest to a number with two decimals; the first decimals lie
    in [66, 82] and [17, 25], and from one reading to the next the decimals
    differ by at most 2 in temperature and at most 1 in pressure. *)
Theorem seeded_histories_are_walks (w : World) :
  unit_draws w ->
  Forall (fun i => seeded_walk (Server.history i)) (Binary64.seeded w).
Proof.
  intros Hw. unfold Binary64.seeded.
  pose proof (seed_incidents_draws w) as Hd.
  destruct (Server.seed_incidents w) as [seeds w1]. cbn [snd] in Hd.
  apply seedReadings64_seeded. intros k. rewrite Hd. apply Hw.
Qed.

Lemma seeded_histories_are_walks_witness :
  Forall (fun i => seeded_walk (Server.history i))
         (Binary64.seeded (Samples.constant_world (1 # 2))).
Proof.
  apply (seeded_histories_are_walks (Samples.constant_world (1 # 2))).
  intros k. split; [discriminate | reflexivity].
Defined.

(** * Further properties of the hook *)

Lemma rerender_incidents (before : Z) (r : Client.Hook * list Client.Output) :
  Client.incidents (fst (Client.rerender before r)) = Client.incidents (fst r)
  /\ Client.catalog (fst (Client.rerender before r)) = Client.catalog (fst r)
  /\ Client.lastError (fst (Client.rerender before r)) = Client.lastError (fst r)
  /\ Client.readingIntervalMs (fst (Client.rerender before r))
     = Client.readingIntervalMs (fst r).
Proof.
  destruct r as [h out]. unfold Client.rerender.
  case_bool_decide; [done|].
  unfold Client.intervalEffect, Client.requestServerInterval.
  destruct (Client.suppressIntervalRequestRef h); [done|].
  destruct (Client.socket_open h); [|done].
  cbn. unfold Client.clearIntervalTimeout. cbn.
  by destruct (Client.intervalTimeoutRef h).
Qed.

Lemma plain_handle_incidents (h : Client.Hook) (m : ServerMessage.t) :
  Client.incidents (fst (Client.Plain.handleMessage h (Parsed m)))
  = Wire.incidents_after (Client.incidents h) m.
Proof.
  destruct m as [v l c|i|i|ms|code text]; cbn [Client.Plain.handleMessage].
  - destruct (Client.protocol_mismatch v), l, c; reflexivity.
  - reflexivity.
  - reflexivity.
  - destruct (clearIntervalTimeout_fields h) as (_ & _ & E & _).
    case_bool_decide; cbn; by rewrite E.
  - reflexivity.
Qed.

Lemma ack_handle_incidents (h : Client.Hook) (m : ServerMessage.t) :
  Client.incidents (fst (Client.Ack.handleMessage h (Parsed m)))
  = Wire.incidents_after (Client.incidents h) m.
Proof.
  destruct m as [v l c|i|i|ms|code text]; cbn [Client.Ack.handleMessage].
  - destruct (Client.protocol_mismatch v), l, c; reflexivity.
  - reflexivity.
  - reflexivity.
  - destruct (clearIntervalTimeout_fields h) as (_ & _ & E & _).
    destruct (Client.pendingIntervalRef (Client.clearIntervalTimeout h));
      repeat case_bool_decide; cbn; by rewrite E.
  - reflexivity.
Qed.

Lemma deliver_incidents (h : Client.Hook) (m : ServerMessage.t) :
  Client.incidents (fst (Client.Plain.deliver h (Parsed m)))
    = Wire.incidents_after (Client.incidents h) m
  /\ Client.incidents (fst (Client.Ack.deliver h (Parsed m)))
    = Wire.incidents_after (Client.incidents h) m.
Proof.
  unfold Client.Plain.deliver, Client.Ack.deliver. split.
  - destruct (rerender_incidents (Client.readingIntervalMs h)
                (Client.Plain.handleMessage h (Parsed m))) as [-> _].
    apply plain_handle_incidents.
  - destruct (rerender_incidents (Client.readingIntervalMs h)
                (Client.Ack.handleMessage h (Parsed m))) as [-> _].
    apply ack_handle_incidents.
Qed.

Lemma receive_incidents (h : Client.Hook) (messages : list ServerMessage.t) :
  Client.incidents (Wire.receive Client.Plain.deliver h messages)
    = fold_left Wire.incidents_after messages (Client.incidents h)
  /\ Client.incidents (Wire.receive Client.Ack.deliver h messages)
    = fold_left Wire.incidents_after messages (Client.incidents h).
Proof.
  unfold Wire.receive. revert h.
  induction messages as [|m ms IH]; intros h; [done|].
  cbn [fold_left]. destruct (deliver_incidents h m) as [E1 E2].
  destruct (IH (fst (Client.Plain.deliver h (Parsed m)))) as [-> _].
  destruct (IH (fst (Client.Ack.deliver h (Parsed m)))) as [_ ->].
  by rewrite E1, E2.
Qed.

(** ** Client and server on the same list *)

Section SameList.
Local Open Scope list_scope.

Lemma existsb_same_id_false (i : Incident) (l : list Incident) :
  incidentId i ∉ map incidentId l ->
  existsb (fun item => bool_decide (incidentId item = incidentId i)) l = false.
Proof.
  induction l as [|a l IH]; intros H; [done|].
  cbn [existsb map] in *. apply not_elem_of_cons in H as [H1 H2].
  rewrite bool_decide_eq_false_2 by congruence. by apply IH.
Qed.

Lemma update_in_place (pre : list Incident) (a : Incident)
    (rest : list Incident) (b : Incident) :
  incidentId a = incidentId b ->
  NoDup (map incidentId (pre ++ a :: rest)) ->
  Client.incidentsReducer (pre ++ a :: rest) (Client.Update b)
  = pre ++ b :: rest.
Proof.
  intros Hab Hnd. rewrite map_app in Hnd. cbn [map] in Hnd.
  apply NoDup_app in Hnd as (_ & Hpre & Hrest).
  apply NoDup_cons in Hrest as [Hrest _].
  assert (Ea : incidentId b ∉ map incidentId pre).
  { intros Hin. apply (Hpre _ Hin). rewrite <- Hab. by left. }
  assert (Er : incidentId b ∉ map incidentId rest) by (by rewrite <- Hab).
  rewrite reducer_update_unfold, existsb_app. cbn [existsb].
  rewrite (bool_decide_eq_true_2 _ Hab), orb_true_l, orb_true_r.
  rewrite map_app. cbn [map]. rewrite (bool_decide_eq_true_2 _ Hab).
  rewrite (replace_absent b pre) by (by apply existsb_same_id_false).
  by rewrite (replace_absent b rest) by (by apply existsb_same_id_false).
Qed.

(** With distinct identifiers the client's [Update] and the server's
    upsert are the same operation. *)
Lemma reducer_matches_server (l : list Incident) (i : Incident) :
  NoDup (map incidentId l) ->
  Client.incidentsReducer l (Client.Update i)
  = match Server.findIndex (incidentId i) l with
    | Some k => <[k:=i]> l
    | None => i :: l
    end.
Proof.
  intros Hnd. destruct (Server.findIndex _ l) as [k|] eqn:E.
  - apply findIndex_Some in E as (x & Hk & Hx).
    pose proof (take_drop_middle l k x Hk) as Hl.
    assert (Hlen : length (take k l) = k).
    { apply length_take_le. apply lookup_lt_Some in Hk. lia. }
    rewrite <- Hl at 1 2. rewrite <- Hl in Hnd.
    rewrite (update_in_place _ x _ i Hx Hnd).
    rewrite insert_app_r_alt by lia. rewrite Hlen, Nat.sub_diag. reflexivity.
  - apply findIndex_None in E.
    rewrite reducer_update_unfold.
    by rewrite (existsb_same_id_false i l E).
Qed.

Lemma fold_updates (l' : list Incident) :
  forall (l pre : list Incident),
    Forall2 (fun a b => incidentId a = incidentId b) l l' ->
    NoDup (map incidentId (pre ++ l)) ->
    fold_left (fun acc b => Client.incidentsReducer acc (Client.Update b))
      l' (pre ++ l)
    = pre ++ l'.
Proof.
  induction l' as [|b l' IH]; intros l pre HF Hnd.
  - inversion HF; subst. reflexivity.
  - inversion HF as [|a b' l0 l0' Hab HF']; subst.
    cbn [fold_left]. rewrite (update_in_place pre a l0 b Hab Hnd).
    replace (pre ++ b :: l0) with ((pre ++ [b]) ++ l0)
      by (by rewrite <- app_assoc).
    rewrite (IH l0 (pre ++ [b]) HF'); [by rewrite <- app_assoc|].
    rewrite <- app_assoc. cbn [app].
    rewrite map_app in Hnd |- *. cbn [map] in Hnd |- *. by rewrite <- Hab.
Qed.

Lemma frames_tick (requester : bool) (l : list Incident) :
  Wire.frames requester
    (map (fun i => Server.broadcast (ServerMessage.incidentUpdated i)) l)
  = map ServerMessage.incidentUpdated l.
Proof.
  unfold Wire.frames. induction l as [|a l IH]; [done|].
  cbn. f_equal. exact IH.
Qed.

Lemma fold_incidentUpdated (l' l : list Incident) :
  fold_left Wire.incidents_after (map ServerMessage.incidentUpdated l') l
  = fold_left (fun acc b => Client.incidentsReducer acc (Client.Update b)) l' l.
Proof.
  revert l. induction l' as [|b l' IH]; intros l; [done|]. cbn. apply IH.
Qed.

Lemma tick_same_ids (s : Server.State) :
  Forall2 (fun a b => incidentId a = incidentId b)
    (Server.incidents s) (Server.incidents (fst (Server.tick s))).
Proof.
  eapply Forall2_impl; [apply tick_advanced|].
  intros i i' (r & _ & ->). reflexivity.
Qed.

Lemma sync_fold (s : Server.State) (e : Server.Event) (requester : bool) :
  NoDup (Server.ids s) ->
  fold_left Wire.incidents_after
    (Wire.frames requester (snd (Server.step s e))) (Server.incidents s)
  = Server.incidents (fst (Server.step s e)).
Proof.
  intros Hnd.
  destruct e as [[| |[incident|incident|ms]]|];
    cbn [Server.step Server.onMessage].
  - reflexivity.
  - by destruct requester.
  - unfold Server.handle_addIncident.
    destruct (negb _); [by destruct requester|].
    destruct (readings incident) as [[|r0 rs]|];
      try destruct (Server.createReading _ (Server.world s)); reflexivity.
  - unfold Server.handle_updateIncident.
    cbn [fst snd Wire.frames omap fold_left Wire.incidents_after
         Server.incidents Server.with_incidents].
    cbn. by apply reducer_matches_server.
  - reflexivity.
  - pose proof (tick_same_ids s) as HF.
    assert (Hs : snd (Server.tick s)
                 = map (fun i => Server.broadcast
                                   (ServerMessage.incidentUpdated i))
                       (Server.incidents (fst (Server.tick s))))
      by (unfold Server.tick; by destruct (mapM Server.advance _ _)).
    rewrite Hs, frames_tick, fold_incidentUpdated.
    apply (fold_updates _ (Server.incidents s) [] HF). exact Hnd.
Qed.

Lemma snapshot_incidents (s : Server.State) (h : Client.Hook) :
  Client.incidents
    (Wire.receive Client.Ack.deliver h
       (Wire.frames true (Server.onConnection s)))
  = Server.incidents s.
Proof.
  destruct (receive_incidents h (Wire.frames true (Server.onConnection s)))
    as [_ ->]. reflexivity.
Qed.

End SameList.

(** X10.  A client that shows the server's list keeps showing it: when the
    stored identifiers are distinct and the client's incident list equals
    the server's, then after any event (a frame from some client or a timer
    firing) and after the client has handled the frames that event sends
    it, in order, the client's list again equals the server's.  This holds
    for either revision of the hook, for the socket that sent the frame and
    for every other one. *)
Theorem clients_stay_in_sync (s : Server.State) (h : Client.Hook)
    (e : Server.Event) (requester : bool) :
  NoDup (Server.ids s) ->
  Client.incidents h = Server.incidents s ->
  let r := Server.step s e in
  let messages := Wire.frames requester (snd r) in
  Client.incidents (Wire.receive Client.Plain.deliver h messages)
    = Server.incidents (fst r)
  /\ Client.incidents (Wire.receive Client.Ack.deliver h messages)
    = Server.incidents (fst r).
Proof.
  intros Hnd Hh. cbn zeta.
  destruct (receive_incidents h
              (Wire.frames requester (snd (Server.step s e)))) as [-> ->].
  rewrite Hh. split; by apply sync_fold.
Qed.

Lemma clients_stay_in_sync_witness :
  let r := Server.step Scenarios.server0 Server.Tick in
  let messages := Wire.frames false (snd r) in
  Client.incidents (Wire.receive Client.Plain.deliver Scenarios.client0 messages)
    = Server.incidents (fst r)
  /\ Client.incidents (Wire.receive Client.Ack.deliver Scenarios.client0 messages)
    = Server.incidents (fst r).
Proof.
  apply (clients_stay_in_sync Scenarios.server0 Scenarios.client0
           Server.Tick false).
  - unfold Scenarios.server0. rewrite boot_ids. exact seeded_ids_NoDup.
  - apply snapshot_incidents.
Defined.

Lemma rerender_same (before : Z) (h : Client.Hook) (out : list Client.Output) :
  Client.readingIntervalMs h = before ->
  Client.rerender before (h, out) = (h, out).
Proof. intros E. unfold Client.rerender. by rewrite bool_decide_eq_true_2. Qed.

Lemma receive_one
    (handle : Client.Hook -> Frame ServerMessage.t
              -> Client.Hook * list Client.Output)
    (h : Client.Hook) (m : ServerMessage.t) :
  Wire.receive handle h [m] = fst (handle h (Parsed m))
  /\ Wire.outputs handle h [m] = snd (handle h (Parsed m)).
Proof.
  unfold Wire.receive, Wire.outputs. cbn [fold_left fst snd].
  by destruct (handle h (Parsed m)).
Qed.

Lemma deliver_current_init (h : Client.Hook) (l : list Incident) (c : Catalog) :
  let frame := Parsed (ServerMessage.init (Some PROTOCOL_VERSION)
                         (Some l) (Some c)) in
  Client.Plain.deliver h frame
    = (Client.setCatalog (Client.dispatch h (Client.Init l)) c, [])
  /\ Client.Ack.deliver h frame
    = (Client.setCatalog (Client.dispatch h (Client.Init l)) c, []).
Proof.
  cbn zeta. unfold Client.Plain.deliver, Client.Ack.deliver.
  cbn [Client.Plain.handleMessage Client.Ack.handleMessage].
  change (Client.protocol_mismatch (Some PROTOCOL_VERSION)) with (@None string).
  split; by apply rerender_same.
Qed.

(** X11.  The snapshot round trip: whatever state a hook of either revision
    is in, handling the [init] frame that the server sends on connection
    makes its incident list the server's list and its catalog the server's
    catalog, raises no protocol warning ([lastError] and the reading
    interval stay as they were) and puts nothing out. *)
Theorem snapshot_round_trip (s : Server.State) (h : Client.Hook) :
  let messages := Wire.frames true (Server.onConnection s) in
  let settled (h' : Client.Hook) :=
    Client.incidents h' = Server.incidents s
    /\ Client.catalog h' = Server.catalog
    /\ Client.lastError h' = Client.lastError h
    /\ Client.readingIntervalMs h' = Client.readingIntervalMs h in
  settled (Wire.receive Client.Plain.deliver h messages)
  /\ settled (Wire.receive Client.Ack.deliver h messages)
  /\ Wire.outputs Client.Plain.deliver h messages = []
  /\ Wire.outputs Client.Ack.deliver h messages = [].
Proof.
  cbn zeta.
  change (Wire.frames true (Server.onConnection s))
    with [ServerMessage.init (Some PROTOCOL_VERSION)
            (Some (Server.incidents s)) (Some Server.catalog)].
  destruct (receive_one Client.Plain.deliver h
              (ServerMessage.init (Some PROTOCOL_VERSION)
                 (Some (Server.incidents s)) (Some Server.catalog)))
    as [-> ->].
  destruct (receive_one Client.Ack.deliver h
              (ServerMessage.init (Some PROTOCOL_VERSION)
                 (Some (Server.incidents s)) (Some Server.catalog)))
    as [-> ->].
  destruct (deliver_current_init h (Server.incidents s) Server.catalog)
    as [-> ->].
  done.
Qed.

(** X12.  A protocol version in [init] that is present, not empty and not
    ["1"] is a soft failure: the snapshot is applied all the same, and
    [lastError] names the expected and the received version (the later
    revision reports the same text to [onError]). *)
Theorem protocol_mismatch_is_soft (h : Client.Hook) (v : string)
    (snapshot : list Incident) (c : Catalog) :
  v <> "" -> v <> PROTOCOL_VERSION ->
  let frame := Parsed (ServerMessage.init (Some v) (Some snapshot) (Some c)) in
  let warning := "Protocol mismatch: expected 1, got " ++ v ++ "." in
  let settled (h' : Client.Hook) :=
    Client.incidents h' = snapshot /\ Client.catalog h' = c
    /\ Client.lastError h' = Some warning in
  settled (fst (Client.Plain.deliver h frame))
  /\ settled (fst (Client.Ack.deliver h frame))
  /\ snd (Client.Plain.deliver h frame) = []
  /\ snd (Client.Ack.deliver h frame) = [ Client.onError warning ].
Proof.
  intros Hv1 Hv2. cbn zeta.
  unfold Client.Plain.deliver, Client.Ack.deliver.
  cbn [Client.Plain.handleMessage Client.Ack.handleMessage].
  assert (E : Client.protocol_mismatch (Some v)
              = Some ("Protocol mismatch: expected 1, got " ++ v ++ ".")).
  { unfold Client.protocol_mismatch.
    destruct v; [done|]. cbn [truthy_string andb].
    by rewrite bool_decide_eq_false_2. }
  rewrite E. cbn iota beta zeta. rewrite !rerender_same by reflexivity. done.
Qed.

Lemma protocol_mismatch_is_soft_witness :
  let frame := Parsed (ServerMessage.init (Some "2")
                         (Some Samples.test_incidents) (Some Server.catalog)) in
  let settled (h' : Client.Hook) :=
    Client.incidents h' = Samples.test_incidents
    /\ Client.catalog h' = Server.catalog
    /\ Client.lastError h' = Some "Protocol mismatch: expected 1, got 2." in
  settled (fst (Client.Plain.deliver Client.initial frame))
  /\ settled (fst (Client.Ack.deliver Client.initial frame))
  /\ snd (Client.Plain.deliver Client.initial frame) = []
  /\ snd (Client.Ack.deliver Client.initial frame)
     = [ Client.onError "Protocol mismatch: expected 1, got 2." ].
Proof.
  apply (protocol_mismatch_is_soft Client.initial "2"
           Samples.test_incidents Server.catalog); discriminate.
Defined.

Lemma rerender_suppressed (before : Z) (h : Client.Hook)
    (out : list Client.Output) :
  Client.suppressIntervalRequestRef h = true
  \/ Client.readingIntervalMs h = before ->
  snd (Client.rerender before (h, out)) = out.
Proof.
  intros H. unfold Client.rerender. case_bool_decide as E; [done|].
  destruct H as [H|H]; [|done].
  unfold Client.intervalEffect. rewrite H. cbn. apply app_nil_r.
Qed.

Lemma plain_deliver_out (h : Client.Hook) (frame : Frame ServerMessage.t) :
  snd (Client.Plain.deliver h frame) = [].
Proof.
  unfold Client.Plain.deliver.
  destruct (Client.Plain.handleMessage h frame) as [h' out] eqn:E.
  assert (Hout : out = []).
  { destruct frame as [| |[v l c|i|i|ms|code text]];
      cbn [Client.Plain.handleMessage] in E; by injection E as _ <-. }
  subst out. apply rerender_suppressed.
  destruct frame as [| |[v l c|i|i|ms|code text]];
    cbn [Client.Plain.handleMessage] in E; injection E as <-;
    try (right; reflexivity).
  - right. by destruct (Client.protocol_mismatch v), l, c.
  - destruct (clearIntervalTimeout_fields h) as (_ & E2 & _).
    case_bool_decide; [right; cbn; exact E2 | left; reflexivity].
Qed.

Lemma ack_deliver_out (h : Client.Hook) (frame : Frame ServerMessage.t) :
  Forall (fun o => Wire.is_sent o = false) (snd (Client.Ack.deliver h frame)).
Proof.
  unfold Client.Ack.deliver.
  destruct (Client.Ack.handleMessage h frame) as [h' out] eqn:E.
  assert (Hout : Forall (fun o => Wire.is_sent o = false) out).
  { destruct frame as [| |[v l c|i|i|ms|code text]];
      cbn [Client.Ack.handleMessage] in E.
    - by injection E as _ <-.
    - injection E as _ <-. by repeat constructor.
    - destruct (Client.protocol_mismatch v); injection E as _ <-;
        by repeat constructor.
    - by injection E as _ <-.
    - by injection E as _ <-.
    - destruct (Client.pendingIntervalRef _); [case_bool_decide|];
        injection E as _ <-; by repeat constructor.
    - injection E as _ <-. by repeat constructor. }
  rewrite rerender_suppressed; [done|].
  destruct frame as [| |[v l c|i|i|ms|code text]];
    cbn [Client.Ack.handleMessage] in E.
  - injection E as <- _. by right.
  - injection E as <- _. by right.
  - right. destruct (Client.protocol_mismatch v), l, c; by injection E as <- _.
  - injection E as <- _. by right.
  - injection E as <- _. by right.
  - destruct (clearIntervalTimeout_fields h) as (_ & E2 & _).
    destruct (Client.pendingIntervalRef _).
    + case_bool_decide; injection E as <- _;
        [right; cbn; exact E2 | left; reflexivity].
    + case_bool_decide; injection E as <- _;
        [right; cbn; exact E2 | left; reflexivity].
  - injection E as <- _. by right.
Qed.

(** X13.  Handling a frame from the server never puts a frame on the
    socket, not even through the interval effect of the render that
    follows: a reading interval adopted from the server is not requested
    back.  The shorter revision puts out nothing at all, the later one only
    calls to [onError]. *)
Theorem deliver_never_sends (h : Client.Hook) (frame : Frame ServerMessage.t) :
  snd (Client.Plain.deliver h frame) = []
  /\ Forall (fun o => Wire.is_sent o = false) (snd (Client.Ack.deliver h frame)).
Proof. split; [apply plain_deliver_out | apply ack_deliver_out]. Qed.





(** X15.  [requestServerInterval] does nothing while the socket is not
    open.  On an open socket it records the value as pending, arms the wait
    timer and sends one [setReadingInterval] frame; if the timer then fires,
    [lastError] becomes the not-confirmed warning while the request stays
    recorded as pending and the local interval is left alone. *)
Theorem request_then_timeout (h : Client.Hook) (X : Z) :
  let r := Client.requestServerInterval h X in
  if Client.socket_open h then
    Client.pendingIntervalRef (fst r) = Some X
    /\ Client.timeoutArmed (fst r) = true
    /\ snd r = [ Client.sent (ClientMessage.setReadingInterval X) ]
    /\ Client.lastError (fst r) = Client.lastError h
    /\ Client.lastError (Client.intervalTimeout (fst r))
       = Some "Server did not confirm the reading interval change."
    /\ Client.pendingIntervalRef (Client.intervalTimeout (fst r)) = Some X
    /\ Client.readingIntervalMs (Client.intervalTimeout (fst r))
       = Client.readingIntervalMs h
  else r = (h, []).
Proof.
  cbn zeta. unfold Client.requestServerInterval.
  destruct (Client.socket_open h); [|done].
  cbn [fst snd]. unfold Client.clearIntervalTimeout.
  destruct (Client.intervalTimeoutRef (Client.set_pending h (Some X))); done.
Qed.

(** X16.  In the later revision, an acknowledgement equal to the pending
    request clears the request and the error and puts nothing out; the
    local interval is left as it was, and so is the suppress flag. *)
Theorem matching_ack_clears (h : Client.Hook) (X : Z) :
  Client.pendingIntervalRef h = Some X ->
  let r := Client.Ack.deliver h
             (Parsed (ServerMessage.readingIntervalUpdated X)) in
  Client.pendingIntervalRef (fst r) = None
  /\ Client.lastError (fst r) = None
  /\ Client.readingIntervalMs (fst r) = Client.readingIntervalMs h
  /\ Client.suppressIntervalRequestRef (fst r)
     = Client.suppressIntervalRequestRef h
  /\ Client.incidents (fst r) = Client.incidents h
  /\ snd r = [].
Proof.
  intros HX. cbn zeta. unfold Client.Ack.deliver.
  cbn [Client.Ack.handleMessage].
  destruct (clearIntervalTimeout_fields h) as (E1 & E2 & E3 & _).
  rewrite E1, HX. rewrite bool_decide_eq_true_2 by done. cbn [negb].
  rewrite rerender_same by (cbn; exact E2).
  cbn. unfold Client.clearIntervalTimeout.
  by destruct (Client.intervalTimeoutRef h).
Qed.

Lemma matching_ack_clears_witness :
  let r := Client.Ack.deliver Samples.waiting_for_500
             (Parsed (ServerMessage.readingIntervalUpdated 500)) in
  Client.pendingIntervalRef (fst r) = None
  /\ Client.lastError (fst r) = None
  /\ Client.readingIntervalMs (fst r)
     = Client.readingIntervalMs Samples.waiting_for_500
  /\ Client.suppressIntervalRequestRef (fst r)
     = Client.suppressIntervalRequestRef Samples.waiting_for_500
  /\ Client.incidents (fst r) = Client.incidents Samples.waiting_for_500
  /\ snd r = [].
Proof.
  apply (matching_ack_clears Samples.waiting_for_500 500). reflexivity.
Defined.

(** X17.  A [readingIntervalUpdated] that arrives while nothing is pending
    (another client changed the interval) is adopted without a word, in
    either revision: the local interval becomes the server's, [lastError]
    is cleared, nothing is put out, and after the render that follows no
    request is pending, so the adopted value is not sent back. *)
Theorem foreign_change_adopted (h : Client.Hook) (Y : Z) :
  Client.pendingIntervalRef h = None ->
  let frame := Parsed (ServerMessage.readingIntervalUpdated Y) in
  let adopted (r : Client.Hook * list Client.Output) :=
    Client.readingIntervalMs (fst r) = Y
    /\ Client.lastError (fst r) = None
    /\ Client.pendingIntervalRef (fst r) = None
    /\ Client.incidents (fst r) = Client.incidents h
    /\ snd r = [] in
  adopted (Client.Plain.deliver h frame) /\ adopted (Client.Ack.deliver h frame).
Proof.
  intros HP. cbn zeta.
  assert (E : Client.Ack.handleMessage h
                (Parsed (ServerMessage.readingIntervalUpdated Y))
              = Client.Plain.handleMessage h
                  (Parsed (ServerMessage.readingIntervalUpdated Y))).
  { cbn [Client.Ack.handleMessage Client.Plain.handleMessage].
    destruct (clearIntervalTimeout_fields h) as (-> & _). by rewrite HP. }
  unfold Client.Ack.deliver. rewrite E.
  fold (Client.Plain.deliver h (Parsed (ServerMessage.readingIntervalUpdated Y))).
  assert (A : Client.incidents
                (fst (Client.Plain.deliver h
                        (Parsed (ServerMessage.readingIntervalUpdated Y))))
              = Client.incidents h)
    by (destruct (deliver_incidents h (ServerMessage.readingIntervalUpdated Y))
          as [-> _]; reflexivity).
  destruct (plain_interval_update h Y) as (R1 & R2 & R3 & R4).
  done.
Qed.

Lemma foreign_change_adopted_witness :
  let frame := Parsed (ServerMessage.readingIntervalUpdated 5000) in
  let adopted (r : Client.Hook * list Client.Output) :=
    Client.readingIntervalMs (fst r) = 5000%Z
    /\ Client.lastError (fst r) = None
    /\ Client.pendingIntervalRef (fst r) = None
    /\ Client.incidents (fst r) = Client.incidents Client.initial
    /\ snd r = [] in
  adopted (Client.Plain.deliver Client.initial frame)
  /\ adopted (Client.Ack.deliver Client.initial frame).
Proof.
  apply (foreign_change_adopted Client.initial 5000). reflexivity.
Defined.

(** ** The reducer and the detail route *)

Section ReducerIds.
Local Open Scope list_scope.

Lemma existsb_same_id_true (i : Incident) (l : list Incident) :
  incidentId i ∈ map incidentId l ->
  existsb (fun item => bool_decide (incidentId item = incidentId i)) l = true.
Proof.
  induction l as [|a l IH]; intros H; [by apply elem_of_nil in H|].
  cbn [existsb map] in *. apply elem_of_cons in H as [H|H].
  - by rewrite bool_decide_eq_true_2.
  - rewrite IH by done. apply orb_true_r.
Qed.

Lemma map_replace_ids (i : Incident) (l : list Incident) :
  map incidentId
    (map (fun item => if bool_decide (incidentId item = incidentId i)
                      then i else item) l)
  = map incidentId l.
Proof.
  induction l as [|a l IH]; [done|]. cbn [map]. rewrite IH. f_equal.
  by case_bool_decide.
Qed.

Lemma find_replaced (i : Incident) (l : list Incident) :
  incidentId i ∈ map incidentId l ->
  find (fun item => bool_decide (incidentId item = incidentId i))
    (map (fun item => if bool_decide (incidentId item = incidentId i)
                      then i else item) l)
  = Some i.
Proof.
  induction l as [|a l IH]; intros H; [by apply elem_of_nil in H|].
  cbn [map find]. destruct (bool_decide (incidentId a = incidentId i)) eqn:E.
  - by rewrite bool_decide_eq_true_2.
  - rewrite E. apply IH. cbn [map] in H.
    apply elem_of_cons in H as [H|H]; [|done].
    apply bool_decide_eq_false in E. congruence.
Qed.

End ReducerIds.

(** X18.  The reducer's [Update] never changes which identifiers the list
    holds beyond putting a new one in front: the identifiers, in order, are
    the same when the identifier was present and the new one followed by
    the old ones otherwise, so distinct identifiers stay distinct and a
    known incident keeps its position.  [Add] always puts the identifier in
    front, so adding a known identifier leaves it twice in the list. *)
Theorem reducer_ids (l : list Incident) (i : Incident) :
  let ids (x : list Incident) := map incidentId x in
  ids (Client.incidentsReducer l (Client.Update i))
    = (if bool_decide (incidentId i ∈ ids l) then ids l
       else incidentId i :: ids l)
  /\ (NoDup (ids l) -> NoDup (ids (Client.incidentsReducer l (Client.Update i))))
  /\ ids (Client.incidentsReducer l (Client.Add i)) = incidentId i :: ids l
  /\ (incidentId i ∈ ids l ->
      ~ NoDup (ids (Client.incidentsReducer l (Client.Add i)))).
Proof.
  cbn zeta.
  assert (E : map incidentId (Client.incidentsReducer l (Client.Update i))
              = if bool_decide (incidentId i ∈ map incidentId l)
                then map incidentId l else incidentId i :: map incidentId l).
  { rewrite reducer_update_unfold. case_bool_decide as H.
    - rewrite (existsb_same_id_true i l H). apply map_replace_ids.
    - by rewrite (existsb_same_id_false i l H). }
  split; [exact E|]. split; [|split; [reflexivity|]].
  - intros Hnd. rewrite E. case_bool_decide; [done|]. by constructor.
  - intros Hin Hnd. cbn in Hnd. by apply NoDup_cons in Hnd as [? _].
Qed.

(** X19.  What the detail route shows for an incident's identifier right
    after that incident was applied to the list, by [Update] or by [Add], is
    that incident; without a route parameter it shows none. *)
Theorem detail_after_update (l : list Incident) (i : Incident) :
  AppRouter.detail_incident (Client.incidentsReducer l (Client.Update i))
    (Some (incidentId i)) = Some i
  /\ AppRouter.detail_incident (Client.incidentsReducer l (Client.Add i))
       (Some (incidentId i)) = Some i
  /\ AppRouter.detail_incident l None = None.
Proof.
  unfold AppRouter.detail_incident.
  assert (Ext : forall x,
            find (fun item => bool_decide (Some (incidentId item)
                                           = Some (incidentId i))) x
            = find (fun item => bool_decide (incidentId item = incidentId i)) x).
  { intros x. induction x as [|a x IH]; [done|]. cbn [find]. rewrite IH.
    destruct (decide (incidentId a = incidentId i)) as [D|D].
    - rewrite !bool_decide_eq_true_2; [done..|]. by rewrite D.
    - rewrite !bool_decide_eq_false_2; [done..|]. congruence. }
  rewrite !Ext. split; [|split].
  - rewrite reducer_update_unfold.
    destruct (existsb _ l) eqn:E.
    + apply find_replaced.
      destruct (decide (incidentId i ∈ map incidentId l)) as [D|D]; [done|].
      by rewrite (existsb_same_id_false i l D) in E.
    + cbn [find]. by rewrite bool_decide_eq_true_2.
  - cbn [Client.incidentsReducer find]. by rewrite bool_decide_eq_true_2.
  - induction l as [|a l IH]; [done|]. cbn [find].
    by rewrite bool_decide_eq_false_2.
Qed.

(** ** The update callback of the hook *)

Lemma lookup_map_Some {A B} (f : A -> B) (l : list A) (k : nat) (a : A) :
  l !! k = Some a -> map f l !! k = Some (f a).
Proof.
  revert k. induction l as [|x l IH]; intros [|k] H; try done.
  - by injection H as ->.
  - by apply IH.
Qed.

(** C10.  [updateIncident] applies the update to the local list at once,
    whatever the state of the socket: when an incident with the same
    identifier is in the list, every such entry is replaced in place and
    the others stay where they are, and otherwise the incident is put in
    front; either way the incident is in the list afterwards and is what
    a lookup by its identifier finds.  Nothing else of the hook state
    changes, and the [updateIncident] frame is sent only when the socket is
    [OPEN]: with a closed socket the local list reflects the update and
    nothing reaches the server. *)
Theorem updateIncident_local_first (h : Client.Hook) (incident : Incident) :
  let r := Client.updateIncident h incident in
  let l := Client.incidents h in
  let l' := Client.incidents (fst r) in
  let same (item : Incident) :=
    bool_decide (incidentId item = incidentId incident) in
  l' = (if bool_decide (incidentId incident ∈ map incidentId l)
        then map (fun item => if same item then incident else item) l
        else incident :: l)
  /\ In incident l'
  /\ find same l' = Some incident
  /\ (forall k item, l !! k = Some item -> same item = false ->
        l' !! (if bool_decide (incidentId incident ∈ map incidentId l)
               then k else S k) = Some item)
  /\ (Client.catalog (fst r) = Client.catalog h
      /\ Client.connectionStatus (fst r) = Client.connectionStatus h
      /\ Client.readingIntervalMs (fst r) = Client.readingIntervalMs h
      /\ Client.lastError (fst r) = Client.lastError h
      /\ Client.socketRef (fst r) = Client.socketRef h
      /\ Client.pendingIntervalRef (fst r) = Client.pendingIntervalRef h)
  /\ snd r = (if Client.socket_open h
              then [ Client.sent (ClientMessage.updateIncident incident) ]
              else []).
Proof.
  cbn zeta.
  assert (Ef : fst (Client.updateIncident h incident)
               = Client.dispatch h (Client.Update incident)).
  { unfold Client.updateIncident. rewrite dispatch_socket_open.
    by destruct (Client.socket_open h). }
  assert (El : Client.incidents (fst (Client.updateIncident h incident))
               = if bool_decide (incidentId incident
                                 ∈ map incidentId (Client.incidents h))
                 then map (fun item =>
                             if bool_decide (incidentId item = incidentId incident)
                             then incident else item) (Client.incidents h)
                 else incident :: Client.incidents h).
  { rewrite Ef. cbn [Client.dispatch Client.incidents].
    rewrite reducer_update_unfold. case_bool_decide as H.
    - by rewrite (existsb_same_id_true incident _ H).
    - by rewrite (existsb_same_id_false incident _ H). }
  split; [exact El|]. rewrite El. clear El.
  set (l := Client.incidents h).
  assert (Hfind : find (fun item => bool_decide (incidentId item = incidentId incident))
            (if bool_decide (incidentId incident ∈ map incidentId l)
             then map (fun item =>
                         if bool_decide (incidentId item = incidentId incident)
                         then incident else item) l
             else incident :: l) = Some incident).
  { case_bool_decide as H; [by apply find_replaced|].
    cbn [find]. by rewrite bool_decide_eq_true_2. }
  split; [|split; [exact Hfind|split; [|split]]].
  - by apply find_some in Hfind as [? _].
  - intros k item Hk Hs.
    destruct (bool_decide (incidentId incident ∈ map incidentId l)).
    + rewrite (lookup_map_Some _ _ _ _ Hk). by rewrite Hs.
    + exact Hk.
  - by rewrite Ef.
  - unfold Client.updateIncident. rewrite dispatch_socket_open.
    by destruct (Client.socket_open h).
Qed.

(** * Further properties of the pages *)

Lemma in_bucket_unique (i : Incident) (b1 b2 : Filters.IncidentBucket) :
  Filters.in_bucket b1 i = true -> Filters.in_bucket b2 i = true -> b1 = b2.
Proof.
  unfold Filters.in_bucket.
  destruct (bool_decide (stateId i = INCIDENT_STATES.OPEN)) eqn:E1,
           (bool_decide (stateId i = INCIDENT_STATES.CLOSED)) eqn:E2,
           (truthy (assignedTo i)), b1, b2; cbn; try done.
  all: intros _ _; exfalso; apply open_not_closed;
    apply bool_decide_eq_true in E1, E2; congruence.
Qed.

(** X20.  The three buckets never overlap and list nothing foreign: an
    incident listed under two bucket names for the same filters is listed
    under one and the same bucket, and a listed incident is one of the
    given incidents, passes the filters and has state [OPEN] or [CLOSED]. *)
Theorem buckets_are_disjoint (incidents : list Incident) (esc : option string)
    (types : option (list string)) (i : Incident)
    (b1 b2 : Filters.IncidentBucket) :
  In i (Filters.getIncidentsByType incidents b1 esc types) ->
  In i (Filters.getIncidentsByType incidents b2 esc types) ->
  b1 = b2
  /\ In i incidents
  /\ Filters.matchesFilter esc types i = true
  /\ (stateId i = INCIDENT_STATES.OPEN \/ stateId i = INCIDENT_STATES.CLOSED).
Proof.
  rewrite !getIncidentsByType_In. intros (Hin & Hf & H1) (_ & _ & H2).
  split; [by eapply in_bucket_unique|]. split; [done|]. split; [done|].
  unfold Filters.in_bucket in H1.
  destruct b1;
    [apply andb_true_iff in H1 as [H1 _]; left
    |apply andb_true_iff in H1 as [H1 _]; left
    |right]; by apply bool_decide_eq_true in H1.
Qed.

Lemma buckets_are_disjoint_witness :
  Filters.active = Filters.active
  /\ In Samples.active_1 Samples.test_incidents
  /\ Filters.matchesFilter (Some "esc-1") (Some ["type-a"]) Samples.active_1
     = true
  /\ (stateId Samples.active_1 = INCIDENT_STATES.OPEN
      \/ stateId Samples.active_1 = INCIDENT_STATES.CLOSED).
Proof.
  apply (buckets_are_disjoint Samples.test_incidents (Some "esc-1")
           (Some ["type-a"]) Samples.active_1 Filters.active Filters.active);
    vm_compute; left; reflexivity.
Defined.

Lemma level_filter_spec (esc : option string) (i : Incident) :
  truthy_opt esc && negb (bool_decide (Some (escalationLevelId i) = esc)) = false
  <-> (forall e, esc = Some e -> e <> "" -> escalationLevelId i = e).
Proof.
  destruct esc as [[|a e]|]; cbn [truthy_opt truthy_string andb].
  - split; [|done]. intros _ e0 [= <-] H. done.
  - destruct (bool_decide (Some (escalationLevelId i) = Some (String a e))) eqn:E;
      cbn [negb].
    + apply bool_decide_eq_true in E. injection E as E.
      split; [|done]. intros _ e0 [= <-] _. exact E.
    + apply bool_decide_eq_false in E. split; [done|].
      intros H. exfalso. apply E. f_equal. by apply H.
  - split; [|done]. intros _ e0 [=].
Qed.

Lemma type_filter_spec (t : string) (ts : list string) (i : Incident) :
  existsb (fun typeId => bool_decide (typeId ∈ default [] (incidentTypeIds i)))
    (t :: ts) = true
  <-> exists ty, ty ∈ t :: ts /\ ty ∈ default [] (incidentTypeIds i).
Proof.
  rewrite existsb_exists. split.
  - intros (ty & Hty & Hb). exists ty. split; [by apply list_elem_of_In|].
    by apply bool_decide_eq_true in Hb.
  - intros (ty & Hty & Hin). exists ty. split; [by apply list_elem_of_In|].
    by apply bool_decide_eq_true.
Qed.

Lemma matchesFilter_spec (esc : option string) (types : option (list string))
    (i : Incident) :
  Filters.matchesFilter esc types i = true
  <-> (forall e, esc = Some e -> e <> "" -> escalationLevelId i = e)
      /\ (forall t ts, types = Some (t :: ts) ->
            exists ty, ty ∈ t :: ts /\ ty ∈ default [] (incidentTypeIds i)).
Proof.
  unfold Filters.matchesFilter. rewrite <- level_filter_spec.
  destruct (truthy_opt esc && _) eqn:L.
  - split; [done|]. by intros [? _].
  - destruct types as [[|t ts]|].
    + split; [|done]. intros _. split; [done|]. intros ? ? [=].
    + pose proof (type_filter_spec t ts i) as T.
      destruct (existsb _ (t :: ts)) eqn:X; cbn [negb].
      * split; [|done]. intros _. split; [done|].
        intros ? ? [= <- <-]. by apply T.
      * split; [done|]. intros [_ H].
        specialize (H t ts eq_refl). apply T in H. done.
    + split; [|done]. intros _. split; [done|]. intros ? ? [=].
Qed.

(** X21.  The filters are respected, whichever of them are set.  An
    incident is listed under a bucket exactly when it is one of the given
    incidents, belongs to the bucket, has the selected escalation level if
    one is selected (a missing or empty selection asks for nothing), and
    has at least one of the selected incident types among its own if any
    are selected (a missing or empty list asks for nothing).  So for the
    page, which passes its two select boxes: every incident it lists has
    the chosen level unless the box is empty, and the chosen type unless
    that box is empty. *)
Theorem filters_are_respected (incidents : list Incident)
    (b : Filters.IncidentBucket) (esc : option string)
    (types : option (list string)) :
  (forall i,
     In i (Filters.getIncidentsByType incidents b esc types)
     <-> In i incidents
         /\ Filters.in_bucket b i = true
         /\ (forall e, esc = Some e -> e <> "" -> escalationLevelId i = e)
         /\ (forall t ts, types = Some (t :: ts) ->
               exists ty, ty ∈ t :: ts
                          /\ ty ∈ default [] (incidentTypeIds i)))
  /\ (forall selectedEscalation selectedIncidentType i,
        In i (IncidentsPage.filtered incidents b selectedEscalation
                selectedIncidentType) ->
        (selectedEscalation <> "" -> escalationLevelId i = selectedEscalation)
        /\ (selectedIncidentType <> "" ->
            selectedIncidentType ∈ default [] (incidentTypeIds i))).
Proof.
  split.
  - intros i. rewrite getIncidentsByType_In, matchesFilter_spec. tauto.
  - intros e t i Hin. unfold IncidentsPage.filtered in Hin.
    apply getIncidentsByType_In in Hin as (_ & Hf & _).
    apply matchesFilter_spec in Hf as [He Ht]. split.
    + intros Hne. by apply He.
    + intros Hne. unfold IncidentsPage.selectedIncidentTypeIds in Ht.
      destruct t as [|a t]; [done|]. cbn [truthy_string] in Ht.
      destruct (Ht _ _ eq_refl) as (ty & Hty & Hin).
      apply list_elem_of_singleton in Hty. by subst ty.
Qed.

(** The page's default view, escalation level chosen and every type
    shown, on the incidents of the unit test. *)
Example default_view_filters_by_level :
  IncidentsPage.filtered Samples.test_incidents Filters.new "esc-1" ""
    = [ Samples.new_1 ]
  /\ IncidentsPage.filtered Samples.test_incidents Filters.completed "esc-1" ""
    = []
  /\ IncidentsPage.filtered Samples.test_incidents Filters.completed "" ""
    = [ Samples.completed_1 ].
Proof. repeat split. Qed.

Lemma updated_matchesFilter (incident : Incident)
    (target : Filters.IncidentBucket) (esc : option string)
    (types : option (list string)) :
  Filters.matchesFilter esc types (IncidentsPage.updated incident target)
  = Filters.matchesFilter esc types incident.
Proof. reflexivity. Qed.

Lemma updated_in_target (incident : Incident) (target : Filters.IncidentBucket) :
  (target = Filters.active -> assignedTo incident <> value "") ->
  Filters.in_bucket target (IncidentsPage.updated incident target) = true.
Proof.
  intros Ha. destruct target; cbn.
  - reflexivity.
  - destruct (assignedTo incident) as [| |a]; try reflexivity.
    destruct a; [by destruct Ha | reflexivity].
  - reflexivity.
Qed.

(** X22.  Dropping an incident on a column files it under that column: the
    incident built by [handleDrop] for a target keeps its identifier and
    everything the filters look at, and falls in the target bucket and in
    no other.  The one exception is an incident whose [assignedTo] is the
    empty string dropped on the active column: it keeps the empty assignee
    and is filed under [new]. *)
Theorem drop_lands_in_target (incident : Incident)
    (target b : Filters.IncidentBucket) :
  (target = Filters.active -> assignedTo incident <> value "") ->
  incidentId (IncidentsPage.updated incident target) = incidentId incident
  /\ (forall esc types,
        Filters.matchesFilter esc types (IncidentsPage.updated incident target)
        = Filters.matchesFilter esc types incident)
  /\ (Filters.in_bucket b (IncidentsPage.updated incident target) = true
      <-> b = target)
  /\ (assignedTo incident = value "" ->
      Filters.in_bucket Filters.new
        (IncidentsPage.updated incident Filters.active) = true).
Proof.
  intros Ha. split; [done|]. split; [done|]. split.
  - split.
    + intros Hb. eapply in_bucket_unique; [exact Hb|].
      by apply updated_in_target.
    + intros ->. by apply updated_in_target.
  - intros E. cbn. by rewrite E.
Qed.

Lemma drop_lands_in_target_witness :
  incidentId (IncidentsPage.updated Samples.new_1 Filters.active)
    = incidentId Samples.new_1
  /\ (forall esc types,
        Filters.matchesFilter esc types
          (IncidentsPage.updated Samples.new_1 Filters.active)
        = Filters.matchesFilter esc types Samples.new_1)
  /\ (Filters.in_bucket Filters.active
        (IncidentsPage.updated Samples.new_1 Filters.active) = true
      <-> Filters.active = Filters.active)
  /\ (assignedTo Samples.new_1 = value "" ->
      Filters.in_bucket Filters.new
        (IncidentsPage.updated Samples.new_1 Filters.active) = true).
Proof.
  apply (drop_lands_in_target Samples.new_1 Filters.active Filters.active).
  intros _. discriminate.
Defined.

Section Drop.
Local Open Scope list_scope.

Lemma detail_find_ext (id : string) (l : list Incident) :
  find (fun item => bool_decide (Some (incidentId item) = Some id)) l
  = find (fun item => bool_decide (incidentId item = id)) l.
Proof.
  induction l as [|a l IH]; [done|]. cbn [find]. rewrite IH.
  destruct (decide (incidentId a = id)) as [D|D].
  - rewrite !bool_decide_eq_true_2; [done..|]. by rewrite D.
  - rewrite !bool_decide_eq_false_2; [done..|]. congruence.
Qed.

Lemma find_by_id (id : string) (l : list Incident) (x : Incident) :
  find (fun item => bool_decide (incidentId item = id)) l = Some x ->
  In x l /\ incidentId x = id.
Proof.
  intros H. apply find_some in H as [H1 H2].
  split; [done|]. by apply bool_decide_eq_true in H2.
Qed.

Lemma update_known (l : list Incident) (old u : Incident) :
  In old l -> incidentId u = incidentId old ->
  let l' := Client.incidentsReducer l (Client.Update u) in
  In u l'
  /\ map incidentId l' = map incidentId l
  /\ length l' = length l
  /\ find (fun item => bool_decide (incidentId item = incidentId u)) l' = Some u.
Proof.
  intros Hin Hid. cbn zeta.
  assert (Hmem : incidentId u ∈ map incidentId l).
  { change (map incidentId l) with (incidentId <$> l).
    apply list_elem_of_fmap. exists old. split; [done|].
    by apply list_elem_of_In. }
  rewrite reducer_update_unfold, (existsb_same_id_true u l Hmem).
  split; [|split; [apply map_replace_ids|split]].
  - apply in_map_iff. exists old. split; [|done].
    by rewrite bool_decide_eq_true_2.
  - by rewrite length_map.
  - by apply find_replaced.
Qed.

End Drop.

(** X23.  [handleDrop] on the hook.  For an identifier that is in the local
    list, the incident built for the target is applied to the local list at
    once: it is in the list, the list keeps its identifiers and their order,
    the detail route for that identifier shows the new incident, and the
    [updateIncident] frame goes out only when the socket is open.  For an
    identifier that is not in the list nothing changes and nothing is
    sent. *)
Theorem drop_updates_hook (h : Client.Hook) (target : Filters.IncidentBucket)
    (id : string) :
  let r := IncidentsPage.handleDrop h target id in
  match find (fun item => bool_decide (incidentId item = id))
             (Client.incidents h) with
  | Some incident =>
      let u := IncidentsPage.updated incident target in
      In u (Client.incidents (fst r))
      /\ map incidentId (Client.incidents (fst r))
         = map incidentId (Client.incidents h)
      /\ AppRouter.detail_incident (Client.incidents (fst r)) (Some id) = Some u
      /\ snd r = (if Client.socket_open h
                  then [ Client.sent (ClientMessage.updateIncident u) ]
                  else [])
  | None => r = (h, [])
  end.
Proof.
  cbn zeta. unfold IncidentsPage.handleDrop.
  destruct (find _ (Client.incidents h)) as [incident|] eqn:F; [|done].
  apply find_by_id in F as [Hin Hid].
  destruct (update_known (Client.incidents h) incident
              (IncidentsPage.updated incident target) Hin eq_refl)
    as (U1 & U2 & _ & U4).
  unfold Client.updateIncident. rewrite dispatch_socket_open.
  unfold AppRouter.detail_incident. rewrite detail_find_ext.
  change (incidentId (IncidentsPage.updated incident target))
    with (incidentId incident) in U4. rewrite Hid in U4.
  by destruct (Client.socket_open h).
Qed.

(** ** The create form *)

Section PrettyDigits.


End PrettyDigits.

Section GeneratedIds.





End GeneratedIds.


(** X24.  What a submit does, case by case.  With an identifier that is not
    empty after trimming and fails the pattern, only the identifier error is
    set.  Otherwise, if a required field is empty or the priority is not
    between 1 and 5, the form keeps its values, the field errors are set
    and nothing is sent.  Otherwise the identifier and priority fields are
    reset and the success toast is raised whether or not the socket is
    open: with a closed socket nothing is sent.  The hook state is never
    changed. *)
Theorem submit_outcome (trim : string -> string) (page : CreateIncidentPage.Page)
    (h : Client.Hook) (w : World) :
  let form := CreateIncidentPage.formState page in
  let trimmedId := trim (CreateIncidentPage.form_incidentId form) in
  let r := fst (CreateIncidentPage.submitIncident trim page h w) in
  let page' := fst (fst r) in
  snd (fst r) = h
  /\ if truthy_string trimmedId
        && negb (CreateIncidentPage.isIncidentIdValid trimmedId)
     then
       CreateIncidentPage.incidentIdError page'
         = Some CreateIncidentPage.id_error
       /\ CreateIncidentPage.formState page' = form
       /\ CreateIncidentPage.showSuccess page'
          = CreateIncidentPage.showSuccess page
       /\ snd r = []
     else
       match CreateIncidentPage.validateForm form with
       | [] =>
           CreateIncidentPage.showSuccess page' = true
           /\ CreateIncidentPage.form_incidentId
                (CreateIncidentPage.formState page') = ""
           /\ CreateIncidentPage.form_priority
                (CreateIncidentPage.formState page') = Some 1%Z
           /\ CreateIncidentPage.form_siteId
                (CreateIncidentPage.formState page')
              = CreateIncidentPage.form_siteId form
           /\ CreateIncidentPage.fieldErrors page' = []
           /\ (if Client.socket_open h
               then exists incident,
                   snd r = [ Client.sent (ClientMessage.addIncident incident) ]
               else snd r = [])
       | errors =>
           CreateIncidentPage.formState page' = form
           /\ CreateIncidentPage.fieldErrors page' = errors
           /\ CreateIncidentPage.showSuccess page'
              = CreateIncidentPage.showSuccess page
           /\ snd r = []
       end.
Proof.
  cbn zeta. unfold CreateIncidentPage.submitIncident.
  destruct (truthy_string _ && negb _) eqn:C; [done|].
  unfold bind, ret.
  destruct (truthy_string (trim _)) eqn:T.
  - destruct (CreateIncidentPage.validateForm _) eqn:V; [|done].
    cbn [Date_now iso]. unfold Client.sendIncident.
    destruct (Client.socket_open h); cbn; repeat split; eauto.
  - cbn [Date_now].
    destruct (CreateIncidentPage.validateForm _) eqn:V; [|done].
    cbn [Date_now iso]. unfold Client.sendIncident.
    destruct (Client.socket_open h); cbn; repeat split; eauto.
Qed.




(** ** The chart *)

Lemma Math_min_le_first (vs : list Q) (v : Q) :
  (IncidentChart.Math_min v vs <= v)%Q.
Proof.
  unfold IncidentChart.Math_min. revert v.
  induction vs as [|a vs IH]; intros v; cbn [fold_left]; [apply Qle_refl|].
  eapply Qle_trans; [apply IH|apply Q.le_min_l].
Qed.

Lemma Math_min_le (vs : list Q) (v x : Q) :
  In x (v :: vs) -> (IncidentChart.Math_min v vs <= x)%Q.
Proof.
  revert v. induction vs as [|a vs IH]; intros v [<-|Hin].
  - apply Qle_refl.
  - destruct Hin.
  - apply Math_min_le_first.
  - unfold IncidentChart.Math_min. cbn [fold_left].
    destruct Hin as [<-|Hin].
    + eapply Qle_trans; [apply (Math_min_le_first vs)|apply Q.le_min_r].
    + apply (IH (Qmin v a)). by right.
Qed.

Lemma Math_max_ge_first (vs : list Q) (v : Q) :
  (v <= IncidentChart.Math_max v vs)%Q.
Proof.
  unfold IncidentChart.Math_max. revert v.
  induction vs as [|a vs IH]; intros v; cbn [fold_left]; [apply Qle_refl|].
  eapply Qle_trans; [apply Q.le_max_l|apply IH].
Qed.

Lemma Math_max_ge (vs : list Q) (v x : Q) :
  In x (v :: vs) -> (x <= IncidentChart.Math_max v vs)%Q.
Proof.
  revert v. induction vs as [|a vs IH]; intros v [<-|Hin].
  - apply Qle_refl.
  - destruct Hin.
  - apply Math_max_ge_first.
  - unfold IncidentChart.Math_max. cbn [fold_left].
    destruct Hin as [<-|Hin].
    + eapply Qle_trans; [apply Q.le_max_r|apply (Math_max_ge_first vs)].
    + apply (IH (Qmax v a)). by right.
Qed.

Lemma bar_height (lo hi k : Q) :
  (lo <= k)%Q -> (k <= hi)%Q ->
  (0 <= (k - lo) / Qmax (hi - lo) 1 * 100 <= 100)%Q.
Proof.
  intros Hlo Hhi.
  assert (H1 : (1 <= Qmax (hi - lo) 1)%Q) by apply Q.le_max_r.
  assert (H2 : (hi - lo <= Qmax (hi - lo) 1)%Q) by apply Q.le_max_l.
  set (range := Qmax (hi - lo) 1) in *.
  assert (Hpos : (0 < range)%Q) by lra.
  assert (Hq0 : (0 <= (k - lo) / range)%Q).
  { apply Qle_shift_div_l; [done|lra]. }
  assert (Hq1 : ((k - lo) / range <= 1)%Q).
  { apply Qle_shift_div_r; [done|lra]. }
  lra.
Qed.

(** X26.  The chart's bars fit the chart.  For either plotted component
    there is one bar per reading, in the order of the readings and keyed by
    their timestamps, and every height lies between 0 and 100, whatever the
    spread of the values: the range is never taken smaller than 1, so a
    flat history draws bars of height 0 rather than dividing by zero. *)
Theorem bars_fit_the_chart (key : IncidentReading -> Q)
    (readings : list IncidentReading) :
  map fst (IncidentChart.bars key readings) = map timestamp readings
  /\ Forall (fun bar => (0 <= snd bar <= 100)%Q)
            (IncidentChart.bars key readings).
Proof.
  unfold IncidentChart.bars.
  destruct (map key readings) as [|v vs] eqn:E.
  - destruct readings; [done|discriminate].
  - cbn zeta. split.
    + rewrite map_map. done.
    + apply List.Forall_forall. intros bar Hbar.
      apply in_map_iff in Hbar as (item & <- & Hitem).
      cbn [snd].
      assert (Hk : In (key item) (v :: vs)).
      { rewrite <- E. by apply in_map. }
      apply bar_height; [by apply Math_min_le|by apply Math_max_ge].
Qed.
